(** * RF-Powermeter_1v0.ino: a shallow embedding of the sketch and its properties

    The sketch runs on an Arduino Uno (AVR, 16-bit [int], 32-bit
    [unsigned long]).  Its global variables become the record [globals], the
    EEPROM cell at address 0 and the history of the writes to it are carried
    next to the globals in [machine], and the readings of the peripherals
    ([digitalRead], [analogRead], [millis]) are the inputs of one iteration.

    Numbers: [uint8_t], [int16_t] and [uint32_t] values are integers of [Z]
    with the wrap-around of the C type written out.  The [float] arithmetic
    of the calibration is taken as exact arithmetic on rationals ([Q]); the
    two functions of the C library that the sketch calls on floating-point
    values, [pow] and [dtostrf], are parameters of the development.

    Not modelled: the display ([updateScreen()], [showSplash()]), which only
    prints the four texts, and the debug texts, which are compiled out
    ([DEBUGON] is not defined). *)

From Stdlib Require Import ZArith QArith Qround Lqa String Ascii Lia List Bool DecimalString.
From stdpp Require Import base list.

Open Scope Z_scope.

(** ** Machine integers *)

(** [uint8_t]: the value after an increment or a decrement. *)
Definition wrap8 (z : Z) : Z := z mod 256.

(** [int16_t] (and [int] on the AVR): two's complement wrap-around. *)
Definition wrap16 (z : Z) : Z := (z + 32768) mod 65536 - 32768.

(** An [int] converted to [unsigned int] (16 bits). *)
Definition to_u16 (z : Z) : Z := z mod 65536.

(** [uint32_t] subtraction: [a - b] on [unsigned long]. *)
Definition sub32 (a b : Z) : Z := (a - b) mod 2 ^ 32.

Definition b2z (b : bool) : Z := if b then 1 else 0.

(** Sum of a list of integers, without any wrap-around. *)
Definition Zsum (l : list Z) : Z := fold_right Z.add 0 l.

(** ** The averaging filter

    [as16UPwrRaw] and [as16UTempRaw] are arrays of twenty [int16_t];
    [sizeof(as16UPwrRaw) / 2] is 20.  The two filter blocks of [loop()] are
    the same text up to the names of the array and of its index, so one
    definition serves both channels. *)

Definition NSAMPLES : Z := 40 / 2.

(** [as16U...Raw[u8Idx...] = analogRead(...)].  An index outside the array
    does not occur (see [ring_next]); the list is left as it is there. *)
Definition ring_store (a : list Z) (idx v : Z) : list Z :=
  <[Z.to_nat idx := v]> a.

(** [if ( ++u8Idx > (sizeof(a) / 2) - 1 ) u8Idx = 0;] *)
Definition ring_next (idx : Z) : Z :=
  let idx' := wrap8 (idx + 1) in
  if NSAMPLES - 1 <? idx' then 0 else idx'.

(** [s16Tmp = 0; for (u8Count = 0; u8Count < n; u8Count++) s16Tmp += a[u8Count];]
    with the accumulator an [int16_t]. *)
Definition accumulate_upto (n : nat) (a : list Z) : Z :=
  fold_left (fun s16Tmp u8Count => wrap16 (s16Tmp + nth u8Count a 0)) (seq 0 n) 0.

Definition accumulate (a : list Z) : Z := accumulate_upto (Z.to_nat NSAMPLES) a.

(** [s16Tmp = s16Tmp / (sizeof(a) / 2);] the divisor is a [size_t], so the
    accumulator is converted to [unsigned int] and the division is unsigned. *)
Definition average (a : list Z) : Z :=
  wrap16 (to_u16 (accumulate a) / NSAMPLES).

(** One filter block: store, advance the index, average.  The result is
    the new array, the new index and the filtered value. *)
Definition filter_insert (a : list Z) (idx raw : Z) : list Z * Z * Z :=
  let a' := ring_store a idx raw in
  (a', ring_next idx, average a').

(** The filter state after the insertion of each sample of a list, with the
    value returned by the last insertion ([last] when the list is empty). *)
Definition filter_insert_all (a : list Z) (idx last : Z) (raws : list Z)
  : list Z * Z * Z :=
  fold_left (fun st raw => filter_insert (fst (fst st)) (snd (fst st)) raw)
            raws (a, idx, last).

(** A 10-bit reading of the converter. *)
Definition is_sample (v : Z) : Prop := 0 <= v <= 1023.

(** ** Inputs of the program

    What the peripherals return is the input of the model.  [setup()] reads
    the converter twenty times per channel and [millis()] once; one pass of
    [loop()] reads the three pushbutton pins, [millis()] (a second time when
    a pushbutton is accepted) and each channel of the converter once.  When
    the pass ends in [softReset()], [setup()] runs again and consumes
    [reboot]. *)

Record boot_in := mkBootIn {
  bootRFPWR   : nat -> Z;    (* k-th analogRead(AI_RFPWR) of setup() *)
  bootAMBTEMP : nat -> Z;    (* k-th analogRead(AI_AMBTEMP) of setup() *)
  bootMillis  : Z            (* millis() of setup() *)
}.

Record loop_in := mkLoopIn {
  pinPBU     : bool;         (* digitalRead(DI_PBU), true = HIGH *)
  pinPBM     : bool;         (* digitalRead(DI_PBM) *)
  pinPBL     : bool;         (* digitalRead(DI_PBL) *)
  millis1    : Z;            (* millis() assigned to u32MillisCur *)
  millis2    : Z;            (* millis() assigned to u32MillisLast *)
  adcRFPWR   : Z;            (* analogRead(AI_RFPWR) *)
  adcAMBTEMP : Z;            (* analogRead(AI_AMBTEMP) *)
  reboot     : boot_in
}.

(** ** The global variables *)

Record globals := mkGlobals {
  strTempAmb     : string;
  strPwrdBm      : string;
  strPwrW        : string;
  strAtt         : string;
  u8Att          : Z;
  u8AttLast      : Z;
  u8Count        : Z;
  u8IdxUPwrRaw   : Z;
  u8IdxUTempRaw  : Z;
  as16UPwrRaw    : list Z;
  as16UTempRaw   : list Z;
  dPwrW          : Q;
  fPwrdBm        : Q;
  fTamb          : Q;
  s16Tmp         : Z;
  strTmp         : string;
  s16pushButtons : Z;
  u32MillisCur   : Z;
  u32MillisLast  : Z
}.

(** The values the C runtime gives the globals before [setup()]; the two
    arrays have no initialiser and start as zeros. *)
Definition initial_globals : globals := {|
  strTempAmb     := "       ";
  strPwrdBm      := "         ";
  strPwrW        := "        ";
  strAtt         := "     ";
  u8Att          := 0;
  u8AttLast      := 0;
  u8Count        := 0;
  u8IdxUPwrRaw   := 0;
  u8IdxUTempRaw  := 0;
  as16UPwrRaw    := repeat 0 20;
  as16UTempRaw   := repeat 0 20;
  dPwrW          := 0.0;
  fPwrdBm        := 0.0;
  fTamb          := 0.0;
  s16Tmp         := 0;
  strTmp         := "         ";
  s16pushButtons := 0;
  u32MillisCur   := 0;
  u32MillisLast  := 0
|}.

(** The globals together with the EEPROM cell at address 0 and the values
    written to it so far, the most recent first. *)
Record machine := mkMachine {
  glob    : globals;
  EEPROM0 : Z;
  eelog   : list Z
}.

(** A pass of [loop()] either falls through to the next pass or jumps to
    address 0; the EEPROM and the record of its writes survive the jump. *)
Inductive outcome :=
| Running (m : machine)
| SoftReset (ee : Z) (log : list Z).

(** ** setup() *)

Definition setup (ee : Z) (log : list Z) (b : boot_in) : machine :=
  let g := initial_globals in
  (* Init ATT from EEPROM *)
  let '(ee', log', att, attLast) :=
    if 49 <? ee
    then (0, 0 :: log, u8Att g, u8AttLast g)   (* ATT value not valid, set to 0 *)
    else (ee, log, ee, ee) in
  {| glob := {|
       strTempAmb     := strTempAmb g;
       strPwrdBm      := strPwrdBm g;
       strPwrW        := strPwrW g;
       strAtt         := strAtt g;
       u8Att          := att;
       u8AttLast      := attLast;
       u8Count        := NSAMPLES;
       u8IdxUPwrRaw   := u8IdxUPwrRaw g;
       u8IdxUTempRaw  := u8IdxUTempRaw g;
       as16UPwrRaw    := map (bootRFPWR b) (seq 0 (Z.to_nat NSAMPLES));
       as16UTempRaw   := map (bootAMBTEMP b) (seq 0 (Z.to_nat NSAMPLES));
       dPwrW          := dPwrW g;
       fPwrdBm        := fPwrdBm g;
       fTamb          := fTamb g;
       s16Tmp         := s16Tmp g;
       strTmp         := strTmp g;
       s16pushButtons := s16pushButtons g;
       u32MillisCur   := u32MillisCur g;
       u32MillisLast  := bootMillis b
     |};
     EEPROM0 := ee';
     eelog   := log' |}.

(** ** loop(): attenuation *)

(** The three pins, pressed = LOW, packed into [s16pushButtons]. *)
Definition read_buttons (i : loop_in) : Z :=
  let pb := b2z (negb (pinPBU i)) in
  let pb := Z.lor pb (Z.shiftl (b2z (negb (pinPBM i))) 1) in
  Z.lor pb (Z.shiftl (b2z (negb (pinPBL i))) 2).

(** [switch(s16pushButtons)]: the new [u8Att], or [None] for [softReset()]. *)
Definition switch_buttons (pb att : Z) : option Z :=
  match pb with
  | 1 => let att' := wrap8 (att + 1) in            (* Upper PB -> Attenuation++ *)
         Some (if 49 <? att' then 49 else att')
  | 2 => Some (if 0 <? att then wrap8 (att - 1) else att)  (* Middle PB *)
  | 7 => None                                      (* all three -> Reset *)
  | _ => Some att
  end.

(** The window test [(u32MillisCur - u32MillisLast) > 200]. *)
Definition window_open (cur last : Z) : bool := 200 <? sub32 cur last.

Definition set_attenuation (g : globals) (pb cur att attLast last : Z) : globals :=
  {| strTempAmb     := strTempAmb g;
     strPwrdBm      := strPwrdBm g;
     strPwrW        := strPwrW g;
     strAtt         := strAtt g;
     u8Att          := att;
     u8AttLast      := attLast;
     u8Count        := u8Count g;
     u8IdxUPwrRaw   := u8IdxUPwrRaw g;
     u8IdxUTempRaw  := u8IdxUTempRaw g;
     as16UPwrRaw    := as16UPwrRaw g;
     as16UTempRaw   := as16UTempRaw g;
     dPwrW          := dPwrW g;
     fPwrdBm        := fPwrdBm g;
     fTamb          := fTamb g;
     s16Tmp         := s16Tmp g;
     strTmp         := strTmp g;
     s16pushButtons := pb;
     u32MillisCur   := cur;
     u32MillisLast  := last |}.

Definition loop_attenuation (m : machine) (i : loop_in) : outcome :=
  let g := glob m in
  let pb := read_buttons i in
  let cur := millis1 i in
  let idle :=
    Running {| glob := set_attenuation g pb cur (u8Att g) (u8AttLast g) (u32MillisLast g);
               EEPROM0 := EEPROM0 m;
               eelog := eelog m |} in
  if window_open cur (u32MillisLast g) then
    if negb (pb =? 0) then
      match switch_buttons pb (u8Att g) with
      | None => SoftReset (EEPROM0 m) (eelog m)
      | Some att =>
          if negb (att =? u8AttLast g) then
            Running {| glob := set_attenuation g pb cur att att (millis2 i);
                       EEPROM0 := att;
                       eelog := att :: eelog m |}
          else
            Running {| glob := set_attenuation g pb cur att (u8AttLast g) (millis2 i);
                       EEPROM0 := EEPROM0 m;
                       eelog := eelog m |}
      end
    else idle
  else idle.

(** ** Calibration *)

Definition ADCREF : Q := 2.542.

(** [((float)s16Tmp+0.5) * (ADCREF/1024.0)] *)
Definition adc_volts (filtered : Z) : Q :=
  (inject_Z filtered + 0.5) * (ADCREF / 1024.0).

(** 1,88V -> -50dBm / 0,54V -> 5dBm *)
Definition linear_dBm (filtered : Z) : Q :=
  (-2750.0 / 67.0) * adc_volts filtered + (1820.0 / 67.0).

(** 0,44V -> -55 degC / 0,77V -> 100 degC *)
Definition linear_celsius (filtered : Z) : Q :=
  (15500.0 / 33.0) * adc_volts filtered - (785.0 / 3.0).

(** ** Text *)

(** The conversion [%Ns] of [sprintf]: spaces on the left up to a width. *)
Definition pad_left (width : nat) (s : string) : string :=
  (string_of_list_ascii (repeat " "%char (width - String.length s)) ++ s)%string.

(** The conversion [%2d]. *)
Definition fmt_2d (z : Z) : string :=
  pad_left 2 (NilZero.string_of_int (Z.to_int z)).

(** [(char)176], the degree sign of the display font. *)
Definition degree : string := String (ascii_of_nat 176) EmptyString.

(** Stand-ins for the two library functions, to run the sketch on concrete
    inputs: a power that is exact for whole exponents, and the whole part
    of the number as its text. *)
Definition pow_whole (x y : Q) : Q := (x ^ Qfloor y)%Q.

Definition dtostrf_whole (val : Q) (width prec : Z) : string :=
  NilZero.string_of_int (Z.to_int (Qfloor val)).

(** Sample inputs: a converter that reads 400 on the power channel and 250
    on the temperature channel, and passes of [loop()] at a given reading
    of [millis()] with the pushbuttons released or pressed (a pressed
    pushbutton reads LOW). *)
Definition boot_sample : boot_in := mkBootIn (fun _ => 400) (fun _ => 250) 0.

Definition pass (pbu pbm pbl : bool) (t : Z) : loop_in :=
  mkLoopIn pbu pbm pbl t (t + 1) 400 250 boot_sample.

Definition released (t : Z) : loop_in := pass true true true t.
Definition press_upper (t : Z) : loop_in := pass false true true t.
Definition press_middle (t : Z) : loop_in := pass true false true t.
Definition press_lower (t : Z) : loop_in := pass true true false t.
Definition press_all (t : Z) : loop_in := pass false false false t.

Section Sketch.

(** [pow] and [dtostrf] of the C library: the value, the minimum width and
    the number of decimals give the text. *)
Variable pow : Q -> Q -> Q.
Variable dtostrf : Q -> Z -> Z -> string.

(** ** loop(): RF power *)

Definition set_rf_power (g : globals) (a : list Z) (idx filtered : Z)
    (dbm w : Q) (tmp sdBm sW : string) : globals :=
  {| strTempAmb     := strTempAmb g;
     strPwrdBm      := sdBm;
     strPwrW        := sW;
     strAtt         := strAtt g;
     u8Att          := u8Att g;
     u8AttLast      := u8AttLast g;
     u8Count        := NSAMPLES;
     u8IdxUPwrRaw   := idx;
     u8IdxUTempRaw  := u8IdxUTempRaw g;
     as16UPwrRaw    := a;
     as16UTempRaw   := as16UTempRaw g;
     dPwrW          := w;
     fPwrdBm        := dbm;
     fTamb          := fTamb g;
     s16Tmp         := filtered;
     strTmp         := tmp;
     s16pushButtons := s16pushButtons g;
     u32MillisCur   := u32MillisCur g;
     u32MillisLast  := u32MillisLast g |}.

(** Convert W from dBm and autorange: the value of [dPwrW] and the text of
    [strPwrW] without the number, for a [fPwrdBm] already offset. *)
Definition autorange (dbm : Q) : Q * string :=
  if Qlt_le_dec dbm (-30.0) then        (* < 1uW *)
    ((pow 10 (dbm / 10.0) * 1e6)%Q, " nW"%string)
  else if Qlt_le_dec dbm 0.0 then       (* < 1mW *)
    ((pow 10 (dbm / 10.0) * 1e3)%Q, " uW"%string)
  else if Qlt_le_dec dbm 30.0 then      (* < 1W *)
    ((pow 10 (dbm / 10.0))%Q, " mW"%string)
  else                                  (* > 1W *)
    ((pow 10 (dbm / 10.0) * 1e-3)%Q, " W "%string).

Definition loop_rf_power (g : globals) (raw : Z) : globals :=
  let '(a, idx, filtered) := filter_insert (as16UPwrRaw g) (u8IdxUPwrRaw g) raw in
  let dbm := linear_dBm filtered in
  if 583 <? filtered then               (* > 1,88V/< -50dBm *)
    set_rf_power g a idx filtered dbm (dPwrW g) (strTmp g) " --.- dBm" "RF low! "
  else if filtered <? 167 then          (* < 0,54V/ > 5dBm *)
    set_rf_power g a idx filtered dbm (dPwrW g) (strTmp g) " --.- dBm" "RF ovl! "
  else
    let dbm := (dbm + inject_Z (u8Att g))%Q in
    let sdBm := (pad_left 5 (dtostrf dbm 5 1) ++ " dBm")%string in
    let '(w, suffix) := autorange dbm in
    let tmp := dtostrf w 5 1 in
    set_rf_power g a idx filtered dbm w tmp sdBm (pad_left 5 tmp ++ suffix)%string.

(** ** loop(): temperature *)

Definition set_temperature (g : globals) (a : list Z) (idx filtered : Z)
    (t : Q) (tmp sT : string) : globals :=
  {| strTempAmb     := sT;
     strPwrdBm      := strPwrdBm g;
     strPwrW        := strPwrW g;
     strAtt         := strAtt g;
     u8Att          := u8Att g;
     u8AttLast      := u8AttLast g;
     u8Count        := NSAMPLES;
     u8IdxUPwrRaw   := u8IdxUPwrRaw g;
     u8IdxUTempRaw  := idx;
     as16UPwrRaw    := as16UPwrRaw g;
     as16UTempRaw   := a;
     dPwrW          := dPwrW g;
     fPwrdBm        := fPwrdBm g;
     fTamb          := t;
     s16Tmp         := filtered;
     strTmp         := tmp;
     s16pushButtons := s16pushButtons g;
     u32MillisCur   := u32MillisCur g;
     u32MillisLast  := u32MillisLast g |}.

Definition loop_temperature (g : globals) (raw : Z) : globals :=
  let '(a, idx, filtered) := filter_insert (as16UTempRaw g) (u8IdxUTempRaw g) raw in
  let t := linear_celsius filtered in
  if Qlt_le_dec t (-55.0) then          (* Temp too low *)
    set_temperature g a idx filtered t (strTmp g) ("<-55 " ++ degree ++ "C")%string
  else if Qlt_le_dec 100.0 t then       (* Temp too high *)
    set_temperature g a idx filtered t (strTmp g) (">100 " ++ degree ++ "C")%string
  else
    let tmp := dtostrf t 3 0 in
    set_temperature g a idx filtered t tmp
                    (" " ++ pad_left 3 tmp ++ " " ++ degree ++ "C")%string.

(** ** loop(): the attenuation text *)

Definition loop_att_text (g : globals) : globals :=
  {| strTempAmb     := strTempAmb g;
     strPwrdBm      := strPwrdBm g;
     strPwrW        := strPwrW g;
     strAtt         := (fmt_2d (u8Att g) ++ " dB")%string;
     u8Att          := u8Att g;
     u8AttLast      := u8AttLast g;
     u8Count        := u8Count g;
     u8IdxUPwrRaw   := u8IdxUPwrRaw g;
     u8IdxUTempRaw  := u8IdxUTempRaw g;
     as16UPwrRaw    := as16UPwrRaw g;
     as16UTempRaw   := as16UTempRaw g;
     dPwrW          := dPwrW g;
     fPwrdBm        := fPwrdBm g;
     fTamb          := fTamb g;
     s16Tmp         := s16Tmp g;
     strTmp         := strTmp g;
     s16pushButtons := s16pushButtons g;
     u32MillisCur   := u32MillisCur g;
     u32MillisLast  := u32MillisLast g |}.

(** ** loop() *)

Definition loop (m : machine) (i : loop_in) : outcome :=
  match loop_attenuation m i with
  | SoftReset ee log => SoftReset ee log
  | Running m1 =>
      let g := loop_rf_power (glob m1) (adcRFPWR i) in
      let g := loop_temperature g (adcAMBTEMP i) in
      let g := loop_att_text g in
      Running {| glob := g; EEPROM0 := EEPROM0 m1; eelog := eelog m1 |}
  end.

(** One pass of [loop()], followed by [setup()] when it ends in a reset. *)
Definition step (m : machine) (i : loop_in) : machine :=
  match loop m i with
  | Running m' => m'
  | SoftReset ee log => setup ee log (reboot i)
  end.

(** The device from power-up: [setup()], then one pass per input. *)
Definition run (m : machine) (ins : list loop_in) : machine :=
  fold_left step ins m.

Definition power_up (ee : Z) (b : boot_in) (ins : list loop_in) : machine :=
  run (setup ee [] b) ins.

(** The number of EEPROM writes between a state and a later one. *)
Definition writes_between (m m' : machine) : nat :=
  (length (eelog m') - length (eelog m))%nat.

(** What holds of the attenuation between two passes: it is within its
    range and equal to both its last stored copy and the EEPROM cell. *)
Definition att_settled (m : machine) : Prop :=
  0 <= u8Att (glob m) <= 49 /\
  u8AttLast (glob m) = u8Att (glob m) /\
  EEPROM0 m = u8Att (glob m).

(** The part of the machine the attenuation block works on: [u8Att],
    [u8AttLast], [u32MillisLast], the EEPROM cell and the record of its
    writes. *)
Definition att_fields (m : machine) : Z * Z * Z * Z * list Z :=
  (u8Att (glob m), u8AttLast (glob m), u32MillisLast (glob m), EEPROM0 m, eelog m).


(** Passes that the window test accepts one after the other: more than
    200 ms (modulo 2^32) lie between the first reading of [millis()] in a
    pass and the timer, which the pass before it set to its second
    reading. *)
Fixpoint spaced (last : Z) (ins : list loop_in) : Prop :=
  match ins with
  | [] => True
  | i :: ins' => 200 < sub32 (millis1 i) last /\ spaced (millis2 i) ins'
  end.

(** The converter returns 10-bit readings: during [setup()], and during a
    pass together with the [setup()] that may follow it. *)
Definition boot_samples (b : boot_in) : Prop :=
  forall k : nat, is_sample (bootRFPWR b k) /\ is_sample (bootAMBTEMP b k).

Definition pass_samples (i : loop_in) : Prop :=
  is_sample (adcRFPWR i) /\ is_sample (adcAMBTEMP i) /\ boot_samples (reboot i).

(** The converter returns the same two readings all the time. *)
Definition boot_constant (vp vt : Z) (b : boot_in) : Prop :=
  forall k : nat, bootRFPWR b k = vp /\ bootAMBTEMP b k = vt.

Definition pass_constant (vp vt : Z) (i : loop_in) : Prop :=
  adcRFPWR i = vp /\ adcAMBTEMP i = vt /\ boot_constant vp vt (reboot i).

(** Both averaging arrays hold twenty 10-bit readings and both indices
    point into them. *)
Definition filters_ok (g : globals) : Prop :=
  (length (as16UPwrRaw g) = 20%nat /\ Forall is_sample (as16UPwrRaw g) /\
   0 <= u8IdxUPwrRaw g < 20) /\
  (length (as16UTempRaw g) = 20%nat /\ Forall is_sample (as16UTempRaw g) /\
   0 <= u8IdxUTempRaw g < 20).

(** * Properties *)

(** ** Machine integers *)

Lemma wrap16_small (z : Z) : -32768 <= z <= 32767 -> wrap16 z = z.
Proof. intros H. unfold wrap16. rewrite Z.mod_small; lia. Qed.

Lemma to_u16_small (z : Z) : 0 <= z < 65536 -> to_u16 z = z.
Proof. intros H. unfold to_u16. now rewrite Z.mod_small. Qed.

Lemma wrap8_small (z : Z) : 0 <= z < 256 -> wrap8 z = z.
Proof. intros H. unfold wrap8. now rewrite Z.mod_small. Qed.

(** ** The averaging filter *)

Lemma Zsum_app (l k : list Z) : Zsum (l ++ k) = Zsum l + Zsum k.
Proof. induction l as [|x l IH]; simpl; [reflexivity|]. rewrite IH. lia. Qed.

Lemma Zsum_repeat (v : Z) (n : nat) : Zsum (repeat v n) = Z.of_nat n * v.
Proof. induction n as [|n IH]; [reflexivity|]. cbn [repeat Zsum fold_right]. fold (Zsum (repeat v n)). lia. Qed.

Lemma Zsum_samples (l : list Z) :
  Forall is_sample l -> 0 <= Zsum l <= 1023 * Z.of_nat (length l).
Proof.
  induction 1 as [|x l Hx _ IH]; simpl; [lia|].
  unfold is_sample in Hx. fold (Zsum l). lia.
Qed.

Lemma take_S_nth (l : list Z) (n : nat) :
  (n < length l)%nat -> take (S n) l = take n l ++ [nth n l 0].
Proof.
  revert n. induction l as [|x l IH]; intros n Hn; simpl in Hn; [lia|].
  destruct n as [|n]; [reflexivity|].
  cbn [take nth app]. f_equal. apply IH. lia.
Qed.

Lemma accumulate_upto_S (n : nat) (a : list Z) :
  accumulate_upto (S n) a = wrap16 (accumulate_upto n a + nth n a 0).
Proof.
  unfold accumulate_upto. rewrite seq_S, fold_left_app. reflexivity.
Qed.

(** While the array holds samples, the accumulator holds the exact sum of
    the slots read so far. *)
Lemma accumulate_upto_exact (a : list Z) (n : nat) :
  Forall is_sample a -> (length a <= 32)%nat -> (n <= length a)%nat ->
  accumulate_upto n a = Zsum (take n a).
Proof.
  intros Ha Hlen. induction n as [|n IH]; intros Hn; [reflexivity|].
  rewrite accumulate_upto_S, IH by lia.
  rewrite take_S_nth, Zsum_app by lia. cbn [Zsum fold_right].
  assert (Hp : Forall is_sample (take (S n) a)) by now apply Forall_take.
  apply Zsum_samples in Hp. rewrite length_take in Hp.
  rewrite take_S_nth, Zsum_app in Hp by lia. cbn [Zsum fold_right] in Hp.
  rewrite wrap16_small; lia.
Qed.

Lemma accumulate_exact (a : list Z) :
  length a = 20%nat -> Forall is_sample a -> accumulate a = Zsum a.
Proof.
  intros Hlen Ha. unfold accumulate.
  change (Z.to_nat NSAMPLES) with 20%nat.
  rewrite accumulate_upto_exact by (try assumption; lia).
  rewrite <- Hlen. now rewrite firstn_all.
Qed.

Lemma average_exact (a : list Z) :
  length a = 20%nat -> Forall is_sample a -> average a = Zsum a / 20.
Proof.
  intros Hlen Ha. unfold average. rewrite accumulate_exact by assumption.
  pose proof (Zsum_samples a Ha) as Hs. rewrite Hlen in Hs.
  rewrite to_u16_small by lia. change NSAMPLES with 20.
  apply wrap16_small.
  assert (0 <= Zsum a / 20 <= 1023); [|lia].
  split; [apply Z.div_pos; lia | apply Z.div_le_upper_bound; lia].
Qed.

Lemma ring_next_mod (idx : Z) : 0 <= idx < 20 -> ring_next idx = (idx + 1) mod 20.
Proof.
  intros H. unfold ring_next. rewrite wrap8_small by lia.
  change (NSAMPLES - 1) with 19.
  destruct (19 <? idx + 1) eqn:E.
  - apply Z.ltb_lt in E. replace idx with 19 by lia. reflexivity.
  - apply Z.ltb_ge in E. now rewrite Z.mod_small by lia.
Qed.

Lemma ring_store_length (a : list Z) (idx v : Z) :
  length (ring_store a idx v) = length a.
Proof. apply length_insert. Qed.

Lemma ring_store_samples (a : list Z) (idx v : Z) :
  Forall is_sample a -> is_sample v -> Forall is_sample (ring_store a idx v).
Proof. intros Ha Hv. unfold ring_store. now apply Forall_insert. Qed.

(** C9. For every array of twenty samples, each in 0..1023, the [int16_t]
    accumulator of the averaging loop never overflows: after each of the
    twenty additions it holds the exact sum of the slots read so far, which
    is at most 20 * 1023 = 20460 and so below 32767.  The reported average
    is then the exact integer mean of the array, truncated, and this is the
    value the RF power block and the temperature block of [loop()] leave in
    [s16Tmp]. *)
Theorem accumulator_never_overflows (a : list Z) :
  length a = 20%nat -> Forall is_sample a ->
  (forall n : nat, (n <= 20)%nat ->
     accumulate_upto n a = Zsum (take n a) /\
     0 <= Zsum (take n a) <= 20 * 1023) /\
  20 * 1023 = 20460 /\ 20460 < 32767 /\
  average a = Zsum a / 20 /\ average a = Zsum a ÷ 20 /\
  (forall (g : globals) (raw : Z),
     as16UPwrRaw g = a -> is_sample raw ->
     let g' := loop_rf_power g raw in
     s16Tmp g' = Zsum (as16UPwrRaw g') ÷ 20) /\
  (forall (g : globals) (raw : Z),
     as16UTempRaw g = a -> is_sample raw ->
     let g' := loop_temperature g raw in
     s16Tmp g' = Zsum (as16UTempRaw g') ÷ 20).
Proof.
  intros Hlen Ha.
  assert (Hq : forall b, length b = 20%nat -> Forall is_sample b ->
                         average b = Zsum b ÷ 20).
  { intros b Hb Hs. rewrite average_exact by assumption.
    symmetry. apply Z.quot_div_nonneg; [|lia].
    now apply Zsum_samples in Hs. }
  repeat apply conj.
  - intros n Hn. split.
    + apply accumulate_upto_exact; try assumption; lia.
    + assert (Hp : Forall is_sample (take n a)) by now apply Forall_take.
      apply Zsum_samples in Hp. rewrite length_take in Hp. lia.
  - reflexivity.
  - reflexivity.
  - now apply average_exact.
  - now apply Hq.
  - intros g raw Hg Hr. unfold loop_rf_power, filter_insert.
    assert (E : average (ring_store (as16UPwrRaw g) (u8IdxUPwrRaw g) raw)
                = Zsum (ring_store (as16UPwrRaw g) (u8IdxUPwrRaw g) raw) ÷ 20).
    { apply Hq; [rewrite ring_store_length | apply ring_store_samples]; congruence. }
    destruct (583 <? _); [exact E|].
    destruct (_ <? 167); [exact E|].
    destruct (autorange _) as [w suffix]. exact E.
  - intros g raw Hg Hr. unfold loop_temperature, filter_insert.
    assert (E : average (ring_store (as16UTempRaw g) (u8IdxUTempRaw g) raw)
                = Zsum (ring_store (as16UTempRaw g) (u8IdxUTempRaw g) raw) ÷ 20).
    { apply Hq; [rewrite ring_store_length | apply ring_store_samples]; congruence. }
    destruct (Qlt_le_dec _ _); [exact E|].
    destruct (Qlt_le_dec _ _); exact E.
Qed.

Lemma lookup_repeat (v : Z) (n i : nat) : (i < n)%nat -> repeat v n !! i = Some v.
Proof.
  revert i. induction n as [|n IH]; intros i Hi; [lia|].
  destruct i as [|i]; [reflexivity|]. cbn. apply IH. lia.
Qed.

Lemma filter_insert_all_snoc (a : list Z) (idx last : Z) (raws : list Z) (raw : Z) :
  filter_insert_all a idx last (raws ++ [raw]) =
  filter_insert (fst (fst (filter_insert_all a idx last raws)))
                (snd (fst (filter_insert_all a idx last raws))) raw.
Proof. unfold filter_insert_all. now rewrite fold_left_app. Qed.

(** After [k] insertions of [v] the [k] slots from the first write position
    onwards, cyclically, hold [v]. *)
Lemma filter_fill (a : list Z) (idx last v : Z) (k : nat) :
  length a = 20%nat -> 0 <= idx < 20 -> (k <= 20)%nat ->
  let st := filter_insert_all a idx last (repeat v k) in
  length (fst (fst st)) = 20%nat /\
  snd (fst st) = (idx + Z.of_nat k) mod 20 /\
  forall j, 0 <= j < Z.of_nat k ->
    fst (fst st) !! Z.to_nat ((idx + j) mod 20) = Some v.
Proof.
  intros Hlen Hidx. induction k as [|k IH]; intros Hk; cbn zeta.
  - cbn. repeat split; [assumption | rewrite Z.mod_small; lia | lia].
  - cbn [repeat]. rewrite repeat_cons, filter_insert_all_snoc.
    destruct IH as (Hl & Hi & Hv); [lia|].
    set (st := filter_insert_all a idx last (repeat v k)) in *.
    unfold filter_insert. cbn [fst snd].
    assert (Hr : 0 <= (idx + Z.of_nat k) mod 20 < 20) by (apply Z.mod_pos_bound; lia).
    rewrite Hi. repeat split.
    + now rewrite ring_store_length.
    + rewrite ring_next_mod by assumption.
      rewrite Zplus_mod_idemp_l. f_equal. lia.
    + intros j Hj. unfold ring_store.
      destruct (decide (Z.to_nat ((idx + Z.of_nat k) mod 20) = Z.to_nat ((idx + j) mod 20))) as [E|E].
      * rewrite E. apply list_lookup_insert_eq.
        rewrite Hl. assert (0 <= (idx + j) mod 20 < 20) by (apply Z.mod_pos_bound; lia). lia.
      * rewrite list_lookup_insert_ne by assumption.
        apply Hv. destruct (decide (j = Z.of_nat k)) as [->|]; [congruence | lia].
Qed.

(** C7. For every sample [v] in 0..1023 and every filter state (an array of
    twenty slots with any content and a write index into it), twenty
    consecutive insertions of [v] leave [v] in every slot, bring the index
    back to where it was, and the last of them returns exactly [v].  One
    insertion writes the sample at the write index, advances the index by
    one modulo twenty, and returns the sum of the twenty slots divided by
    twenty, truncated. *)
Theorem filter_steady_state (a : list Z) (idx last v : Z) :
  length a = 20%nat -> 0 <= idx < 20 -> is_sample v ->
  filter_insert_all a idx last (repeat v 20) = (repeat v 20, idx, v) /\
  (forall raw : Z, Forall is_sample a -> is_sample raw ->
     filter_insert a idx raw =
       (<[Z.to_nat idx := raw]> a, (idx + 1) mod 20,
        Zsum (<[Z.to_nat idx := raw]> a) ÷ 20)).
Proof.
  intros Hlen Hidx Hv. split.
  - change (repeat v 20) with (v :: repeat v 19) at 1.
    rewrite repeat_cons, filter_insert_all_snoc.
    destruct (filter_fill a idx last v 19 Hlen Hidx) as (Hl & Hi & Hs); [lia|].
    set (st := filter_insert_all a idx last (repeat v 19)) in *.
    assert (Hr : 0 <= (idx + 19) mod 20 < 20) by (apply Z.mod_pos_bound; lia).
    assert (Hfull : ring_store (fst (fst st)) (snd (fst st)) v = repeat v 20).
    { apply list_eq. intros i. unfold ring_store.
      destruct (decide (i < 20)%nat) as [Hi20|Hi20].
      - rewrite (lookup_repeat v 20 i) by assumption.
        destruct (decide (Z.to_nat (snd (fst st)) = i)) as [E|E].
        + rewrite E. apply list_lookup_insert_eq. lia.
        + rewrite list_lookup_insert_ne by assumption.
          replace i with (Z.to_nat ((idx + (Z.of_nat i - idx) mod 20) mod 20)).
          * apply Hs.
            assert (0 <= (Z.of_nat i - idx) mod 20 < 20) by (apply Z.mod_pos_bound; lia).
            destruct (decide ((Z.of_nat i - idx) mod 20 = 19)) as [E19|]; [|lia].
            exfalso. apply E. rewrite Hi. change (Z.of_nat 19) with 19.
            rewrite <- E19, Zplus_mod_idemp_r.
            replace (idx + (Z.of_nat i - idx)) with (Z.of_nat i) by lia.
            rewrite Z.mod_small; lia.
          * rewrite Zplus_mod_idemp_r.
            replace (idx + (Z.of_nat i - idx)) with (Z.of_nat i) by lia.
            rewrite Z.mod_small; lia.
      - rewrite !lookup_ge_None_2; [reflexivity | rewrite repeat_length; lia |].
        rewrite length_insert. lia. }
    unfold filter_insert. rewrite Hfull. f_equal; [f_equal|].
    + rewrite Hi, ring_next_mod by assumption.
      rewrite Zplus_mod_idemp_l. replace (idx + Z.of_nat 19 + 1) with (idx + 1 * 20) by lia.
      rewrite Z.mod_add by lia. apply Z.mod_small. lia.
    + rewrite average_exact.
      * rewrite Zsum_repeat. change (Z.of_nat 20) with 20.
        rewrite Z.mul_comm. apply Z.div_mul. lia.
      * apply repeat_length.
      * apply Forall_forall. intros x Hx. apply list_elem_of_In, repeat_spec in Hx. now subst.
  - intros raw Ha Hr. unfold filter_insert. f_equal; [f_equal|].
    + now apply ring_next_mod.
    + fold (ring_store a idx raw). rewrite average_exact.
      * symmetry. apply Z.quot_div_nonneg; [|lia].
        now apply Zsum_samples, ring_store_samples.
      * now rewrite ring_store_length.
      * now apply ring_store_samples.
Qed.

(** ** The 200 ms window *)


(** ** Attenuation: what one pass does *)

(** The five ways through the attenuation block: window closed, no
    pushbutton, reset, attenuation stored, attenuation unchanged. *)
Ltac attenuation_branches i :=
  destruct (window_open _ _);
  [ destruct (negb (read_buttons i =? 0));
    [ destruct (switch_buttons _ _) as [?att|];
      [ destruct (negb (_ =? _)) | ]
    | ]
  | ].

Lemma read_buttons_cases (i : loop_in) :
  read_buttons i =
    b2z (negb (pinPBU i)) + 2 * b2z (negb (pinPBM i)) + 4 * b2z (negb (pinPBL i)).
Proof. unfold read_buttons. destruct (pinPBU i), (pinPBM i), (pinPBL i); reflexivity. Qed.

Lemma read_buttons_range (i : loop_in) : 0 <= read_buttons i <= 7.
Proof.
  rewrite read_buttons_cases.
  destruct (pinPBU i), (pinPBM i), (pinPBL i); cbn; lia.
Qed.

Lemma switch_buttons_reset (pb att : Z) : switch_buttons pb att = None <-> pb = 7.
Proof.
  unfold switch_buttons. split.
  - destruct pb as [|p|p]; try discriminate.
    destruct p as [[[|[]|]|[]|]|[[]|[]|]|]; try discriminate. reflexivity.
  - now intros ->.
Qed.

Lemma switch_buttons_range (pb att att' : Z) :
  0 <= att <= 49 -> switch_buttons pb att = Some att' -> 0 <= att' <= 49.
Proof.
  intros Ha. unfold switch_buttons.
  assert (Hup : 0 <= (if 49 <? wrap8 (att + 1) then 49 else wrap8 (att + 1)) <= 49).
  { rewrite wrap8_small by lia. destruct (49 <? att + 1) eqn:E; [lia|].
    apply Z.ltb_ge in E. lia. }
  assert (Hdn : 0 <= (if 0 <? att then wrap8 (att - 1) else att) <= 49).
  { destruct (0 <? att) eqn:E; [|lia]. apply Z.ltb_lt in E.
    rewrite wrap8_small; lia. }
  destruct pb as [|p|p]; try (intros [= <-]; lia).
  destruct p as [[[|[]|]|[]|]|[[]|[]|]|]; try (intros [= <-]; lia); discriminate.
Qed.

Lemma loop_rf_power_frame (g : globals) (raw : Z) :
  u8Att (loop_rf_power g raw) = u8Att g /\
  u8AttLast (loop_rf_power g raw) = u8AttLast g /\
  u32MillisLast (loop_rf_power g raw) = u32MillisLast g.
Proof.
  unfold loop_rf_power, filter_insert.
  destruct (583 <? _); [now repeat split|].
  destruct (_ <? 167); [now repeat split|].
  destruct (autorange _). now repeat split.
Qed.

Lemma loop_temperature_frame (g : globals) (raw : Z) :
  u8Att (loop_temperature g raw) = u8Att g /\
  u8AttLast (loop_temperature g raw) = u8AttLast g /\
  u32MillisLast (loop_temperature g raw) = u32MillisLast g.
Proof.
  unfold loop_temperature, filter_insert.
  destruct (Qlt_le_dec _ _); [now repeat split|].
  destruct (Qlt_le_dec _ _); now repeat split.
Qed.

Lemma att_fields_text (g : globals) (e : Z) (l : list Z) :
  att_fields {| glob := loop_att_text g; EEPROM0 := e; eelog := l |}
  = (u8Att g, u8AttLast g, u32MillisLast g, e, l).
Proof. reflexivity. Qed.

Lemma measure_frame (g : globals) (rp rt e : Z) (l : list Z) :
  att_fields {| glob := loop_att_text (loop_temperature (loop_rf_power g rp) rt);
                EEPROM0 := e; eelog := l |}
  = (u8Att g, u8AttLast g, u32MillisLast g, e, l).
Proof.
  rewrite att_fields_text.
  destruct (loop_temperature_frame (loop_rf_power g rp) rt) as (E1 & E2 & E3).
  destruct (loop_rf_power_frame g rp) as (F1 & F2 & F3).
  rewrite E1, E2, E3, F1, F2, F3. reflexivity.
Qed.

Lemma att_fields_inv (m : machine) (a l t e : Z) (log : list Z) :
  att_fields m = (a, l, t, e, log) ->
  u8Att (glob m) = a /\ u8AttLast (glob m) = l /\ u32MillisLast (glob m) = t /\
  EEPROM0 m = e /\ eelog m = log.
Proof. unfold att_fields. intros [= <- <- <- <- <-]. now repeat split. Qed.

(** The attenuation block decides how a pass ends; the measurement blocks
    leave the attenuation fields alone. *)
Lemma loop_cases (m : machine) (i : loop_in) :
  if window_open (millis1 i) (u32MillisLast (glob m)) && negb (read_buttons i =? 0)
  then match switch_buttons (read_buttons i) (u8Att (glob m)) with
       | None => loop m i = SoftReset (EEPROM0 m) (eelog m)
       | Some att =>
           exists m', loop m i = Running m' /\
             att_fields m' =
               if negb (att =? u8AttLast (glob m))
               then (att, att, millis2 i, att, att :: eelog m)
               else (att, u8AttLast (glob m), millis2 i, EEPROM0 m, eelog m)
       end
  else exists m', loop m i = Running m' /\ att_fields m' = att_fields m.
Proof.
  unfold loop, loop_attenuation.
  attenuation_branches i; cbn [andb];
    try reflexivity; eexists; (split; [reflexivity|]);
    cbn [glob EEPROM0 eelog]; rewrite measure_frame; reflexivity.
Qed.

(** One pass, seen on the attenuation fields. *)
Lemma step_fields (m : machine) (i : loop_in) :
  att_fields (step m i) =
    if window_open (millis1 i) (u32MillisLast (glob m)) && negb (read_buttons i =? 0)
    then match switch_buttons (read_buttons i) (u8Att (glob m)) with
         | None => att_fields (setup (EEPROM0 m) (eelog m) (reboot i))
         | Some att =>
             if negb (att =? u8AttLast (glob m))
             then (att, att, millis2 i, att, att :: eelog m)
             else (att, u8AttLast (glob m), millis2 i, EEPROM0 m, eelog m)
         end
    else att_fields m.
Proof.
  pose proof (loop_cases m i) as H. unfold step.
  destruct (_ && _); [destruct (switch_buttons _ _) as [att|]|].
  - destruct H as (m' & -> & E). exact E.
  - now rewrite H.
  - destruct H as (m' & -> & E). exact E.
Qed.

Lemma setup_fields (ee : Z) (log : list Z) (b : boot_in) :
  att_fields (setup ee log b) =
    if 49 <? ee then (0, 0, bootMillis b, 0, 0 :: log)
    else (ee, ee, bootMillis b, ee, log).
Proof. unfold setup. destruct (49 <? ee); reflexivity. Qed.

Lemma run_cons (m : machine) (i : loop_in) (ins : list loop_in) :
  run m (i :: ins) = run (step m i) ins.
Proof. reflexivity. Qed.

(** ** Startup *)

(** C6. [setup()] reads the EEPROM byte at address 0.  A byte above 49 is
    overwritten with 0 in the EEPROM and the attenuation starts at 0; any
    other byte is taken over as the attenuation and as its last stored
    value, and the EEPROM is not written.  A stored 200 gives attenuation 0
    and one write, of the value 0. *)
Theorem setup_restores_attenuation (ee : Z) (log : list Z) (b : boot_in) :
  (49 < ee ->
     EEPROM0 (setup ee log b) = 0 /\ eelog (setup ee log b) = 0 :: log /\
     u8Att (glob (setup ee log b)) = 0 /\ u8AttLast (glob (setup ee log b)) = 0) /\
  (ee <= 49 ->
     EEPROM0 (setup ee log b) = ee /\ eelog (setup ee log b) = log /\
     u8Att (glob (setup ee log b)) = ee /\ u8AttLast (glob (setup ee log b)) = ee) /\
  (u8Att (glob (setup 200 log b)) = 0 /\ EEPROM0 (setup 200 log b) = 0 /\
   eelog (setup 200 log b) = 0 :: log).
Proof.
  split; [|split].
  - intros H. apply Z.ltb_lt in H.
    pose proof (setup_fields ee log b) as E. rewrite H in E.
    apply att_fields_inv in E. tauto.
  - intros H. apply Z.ltb_ge in H.
    pose proof (setup_fields ee log b) as E. rewrite H in E.
    apply att_fields_inv in E. tauto.
  - pose proof (setup_fields 200 log b) as E. cbn [Z.ltb Z.compare Pos.compare Pos.compare_cont] in E.
    apply att_fields_inv in E. tauto.
Qed.

(** ** The attenuation stays settled *)

Lemma setup_settled (ee : Z) (log : list Z) (b : boot_in) :
  0 <= ee -> att_settled (setup ee log b).
Proof.
  intros H. pose proof (setup_fields ee log b) as E.
  destruct (49 <? ee) eqn:C; apply att_fields_inv in E;
    destruct E as (E1 & E2 & _ & E4 & _); unfold att_settled;
    rewrite E1, E2, E4; [lia|]. apply Z.ltb_ge in C. lia.
Qed.

(** What a pass does to a settled machine: nothing to the attenuation and
    the EEPROM, or a change of the attenuation stored at once. *)
Lemma step_effect (m : machine) (i : loop_in) :
  att_settled m ->
  att_settled (step m i) /\
  ((u8Att (glob (step m i)) = u8Att (glob m) /\ eelog (step m i) = eelog m /\
    EEPROM0 (step m i) = EEPROM0 m)
   \/
   (u8Att (glob (step m i)) <> u8Att (glob m) /\
    eelog (step m i) = u8Att (glob (step m i)) :: eelog m /\
    window_open (millis1 i) (u32MillisLast (glob m)) = true /\
    read_buttons i <> 0 /\
    u32MillisLast (glob (step m i)) = millis2 i)).
Proof.
  intros (Hr & Hl & He). pose proof (step_fields m i) as E.
  destruct (window_open _ _) eqn:W; cbn [andb] in E;
    [destruct (negb (read_buttons i =? 0)) eqn:B;
     [destruct (switch_buttons _ _) as [att|] eqn:S;
      [destruct (negb (att =? _)) eqn:C|]|]|].
  - (* accepted, changed and stored *)
    apply att_fields_inv in E. destruct E as (E1 & E2 & E3 & E4 & E5).
    apply switch_buttons_range in S; [|assumption].
    apply negb_true_iff, Z.eqb_neq in C. apply negb_true_iff, Z.eqb_neq in B.
    unfold att_settled. rewrite E1, E2, E4, E5. split; [lia|]. right.
    repeat split; try assumption; congruence.
  - (* accepted, unchanged *)
    apply att_fields_inv in E. destruct E as (E1 & E2 & E3 & E4 & E5).
    apply negb_false_iff, Z.eqb_eq in C.
    unfold att_settled. rewrite E1, E2, E4, E5. split; [lia|]. left.
    repeat split; congruence.
  - (* reset: setup() reads back the stored attenuation *)
    rewrite setup_fields in E.
    assert (C : (49 <? EEPROM0 m) = false) by (apply Z.ltb_ge; lia).
    rewrite C in E. apply att_fields_inv in E. destruct E as (E1 & E2 & E3 & E4 & E5).
    unfold att_settled. rewrite E1, E2, E4, E5. split; [lia|]. left.
    repeat split; congruence.
  - apply att_fields_inv in E. destruct E as (E1 & E2 & E3 & E4 & E5).
    unfold att_settled. rewrite E1, E2, E4, E5. split; [lia|]. left. now repeat split.
  - apply att_fields_inv in E. destruct E as (E1 & E2 & E3 & E4 & E5).
    unfold att_settled. rewrite E1, E2, E4, E5. split; [lia|]. left. now repeat split.
Qed.

Lemma run_settled (m : machine) (ins : list loop_in) :
  att_settled m -> att_settled (run m ins).
Proof.
  revert m. induction ins as [|i ins IH]; intros m H; [exact H|].
  rewrite run_cons. apply IH. now apply step_effect.
Qed.

Lemma power_up_settled (ee : Z) (b : boot_in) (ins : list loop_in) :
  0 <= ee -> att_settled (power_up ee b ins).
Proof. intros H. apply run_settled. now apply setup_settled. Qed.

(** C5. Whatever byte the EEPROM holds at power-up and whatever the
    pushbuttons do, for however long, the attenuation is within 0..49
    after every pass of [loop()]: at 49 the upper pushbutton leaves it at
    49, and at 0 the middle pushbutton leaves it at 0. *)
Theorem attenuation_within_range (ee : Z) (b : boot_in) (ins : list loop_in) :
  0 <= ee <= 255 ->
  let m := power_up ee b ins in
  0 <= u8Att (glob m) <= 49 /\
  (forall i, read_buttons i = 1 -> u8Att (glob m) = 49 ->
             u8Att (glob (step m i)) = 49) /\
  (forall i, read_buttons i = 2 -> u8Att (glob m) = 0 ->
             u8Att (glob (step m i)) = 0) /\
  switch_buttons 1 49 = Some 49 /\ switch_buttons 2 0 = Some 0.
Proof.
  intros Hee m.
  assert (Hs : att_settled m) by (apply power_up_settled; lia).
  split; [apply Hs|]. split; [|split; [|split; reflexivity]].
  - intros i Hb Ha. pose proof (step_fields m i) as E.
    destruct Hs as (_ & Hl & _). rewrite Hb, Hl, Ha in E.
    change (switch_buttons 1 49) with (Some 49) in E.
    destruct (window_open _ _); cbn in E; apply att_fields_inv in E;
      destruct E as (E & _); congruence.
  - intros i Hb Ha. pose proof (step_fields m i) as E.
    destruct Hs as (_ & Hl & _). rewrite Hb, Hl, Ha in E.
    change (switch_buttons 2 0) with (Some 0) in E.
    destruct (window_open _ _); cbn in E; apply att_fields_inv in E;
      destruct E as (E & _); congruence.
Qed.

(** ** The rate limiter *)

Lemma window_open_spec (cur last : Z) :
  window_open cur last = true <-> 200 < sub32 cur last.
Proof. unfold window_open. apply Z.ltb_lt. Qed.

Lemma window_closed_spec (cur last : Z) :
  window_open cur last = false <-> sub32 cur last <= 200.
Proof. unfold window_open. apply Z.ltb_ge. Qed.

(** C4 (as the code has it). In a pass whose window test succeeds, that is
    when more than 200 ms (modulo 2^32) lie between the reading of
    [millis()] and the timer, and in which at least one pushbutton, but not
    all three, is pressed, the timer is set to a fresh reading of
    [millis()] after the [switch], whichever of these masks was read and
    whether or not the attenuation changed.  With all three pressed the
    pass ends in the reset instead.  When the window test fails or no
    pushbutton is pressed the timer keeps its value. *)
Theorem timer_reset_when_accepted (m : machine) (i : loop_in) :
  let last := u32MillisLast (glob m) in
  let pb := read_buttons i in
  (200 < sub32 (millis1 i) last -> pb <> 0 -> pb <> 7 ->
     exists m', loop m i = Running m' /\ u32MillisLast (glob m') = millis2 i) /\
  (200 < sub32 (millis1 i) last -> pb = 7 ->
     loop m i = SoftReset (EEPROM0 m) (eelog m) /\
     u32MillisLast (glob (step m i)) = bootMillis (reboot i)) /\
  (sub32 (millis1 i) last <= 200 \/ pb = 0 ->
     exists m', loop m i = Running m' /\ u32MillisLast (glob m') = last).
Proof.
  intros last pb. pose proof (loop_cases m i) as H. fold last pb in H.
  split; [|split].
  - intros W B0 B7. apply window_open_spec in W. rewrite W in H.
    apply Z.eqb_neq in B0. rewrite B0 in H. cbn [negb andb] in H.
    destruct (switch_buttons pb _) as [att|] eqn:S.
    + destruct H as (m' & E & F). exists m'. split; [exact E|].
      destruct (negb _); apply att_fields_inv in F; tauto.
    + apply switch_buttons_reset in S. contradiction.
  - intros W B7. apply window_open_spec in W. rewrite W in H.
    assert (S : switch_buttons pb (u8Att (glob m)) = None)
      by now apply switch_buttons_reset.
    rewrite S in H. rewrite B7 in H. cbn [Z.eqb negb andb] in H.
    split; [exact H|]. unfold step. rewrite H.
    pose proof (setup_fields (EEPROM0 m) (eelog m) (reboot i)) as F.
    destruct (49 <? _); apply att_fields_inv in F; tauto.
  - intros C.
    assert (E : window_open (millis1 i) last && negb (pb =? 0) = false).
    { destruct C as [C| ->]; [apply window_closed_spec in C; now rewrite C|].
      cbn. apply andb_false_r. }
    rewrite E in H. destruct H as (m' & L & F). exists m'. split; [exact L|].
    unfold att_fields in F. now injection F.
Qed.

Lemma closed_window_step (m : machine) (i : loop_in) :
  sub32 (millis1 i) (u32MillisLast (glob m)) <= 200 ->
  att_fields (step m i) = att_fields m.
Proof.
  intros C. apply window_closed_spec in C.
  rewrite step_fields, C. reflexivity.
Qed.

(** While the window stays closed nothing happens to the attenuation, the
    timer or the EEPROM. *)
Lemma closed_window_run (rest : list loop_in) (m : machine) :
  Forall (fun i => sub32 (millis1 i) (u32MillisLast (glob m)) <= 200) rest ->
  att_fields (run m rest) = att_fields m.
Proof.
  revert m. induction rest as [|i rest IH]; intros m H; [reflexivity|].
  apply Forall_cons in H. destruct H as [Hi Hrest].
  pose proof (closed_window_step m i Hi) as E.
  rewrite run_cons, IH, E; [reflexivity|].
  unfold att_fields in E. injection E as _ _ -> _ _. exact Hrest.
Qed.

Lemma writes_between_same (m m' : machine) :
  eelog m' = eelog m -> writes_between m m' = 0%nat.
Proof. unfold writes_between. intros ->. lia. Qed.

Lemma writes_between_one (m m' : machine) (v : Z) :
  eelog m' = v :: eelog m -> writes_between m m' = 1%nat.
Proof. unfold writes_between. intros ->. cbn [length]. lia. Qed.

(** C3 (as the code has it). From power-up on, a pass writes the
    attenuation to the EEPROM exactly when the attenuation changed in that
    pass, which takes an open window, so also at least 200 ms since the
    timer was set; the value written is the new attenuation.  A burst of
    presses of the upper pushbutton alone, the first of them accepted and
    the others within 200 ms of the timer it sets, stores exactly one
    increment when the attenuation was below 49 and nothing when it was 49.
    And in any run of passes that stay within 200 ms of the timer left by
    the first of them, the EEPROM is written at most once. *)
Theorem eeprom_written_when_changed (ee : Z) (b : boot_in) (ins : list loop_in) :
  0 <= ee <= 255 ->
  let m := power_up ee b ins in
  (forall i : loop_in,
     let m' := step m i in
     (writes_between m m' = 1%nat <->
        u8Att (glob m') <> u8Att (glob m) /\
        200 <= sub32 (millis1 i) (u32MillisLast (glob m))) /\
     (writes_between m m' = 1%nat ->
        eelog m' = u8Att (glob m') :: eelog m /\ EEPROM0 m' = u8Att (glob m') /\
        200 < sub32 (millis1 i) (u32MillisLast (glob m))) /\
     (writes_between m m' <> 1%nat -> eelog m' = eelog m /\ EEPROM0 m' = EEPROM0 m)) /\
  (forall (i0 : loop_in) (rest : list loop_in),
     read_buttons i0 = 1 -> Forall (fun i => read_buttons i = 1) rest ->
     200 < sub32 (millis1 i0) (u32MillisLast (glob m)) ->
     Forall (fun i => sub32 (millis1 i) (millis2 i0) <= 200) rest ->
     let m' := run m (i0 :: rest) in
     (u8Att (glob m) < 49 ->
        eelog m' = (u8Att (glob m) + 1) :: eelog m /\
        EEPROM0 m' = u8Att (glob m) + 1 /\
        u8Att (glob m') = u8Att (glob m) + 1 /\
        writes_between m m' = 1%nat) /\
     (u8Att (glob m) = 49 ->
        eelog m' = eelog m /\ u8Att (glob m') = 49 /\
        writes_between m m' = 0%nat)) /\
  (forall (i0 : loop_in) (rest : list loop_in),
     Forall (fun i => sub32 (millis1 i) (u32MillisLast (glob (step m i0))) <= 200) rest ->
     (writes_between m (run m (i0 :: rest)) <= 1)%nat).
Proof.
  intros Hee m.
  assert (Hs : att_settled m) by (apply power_up_settled; lia).
  split; [|split].
  - intros i m'. destruct (step_effect m i Hs) as (Hs' & [(A & L & E)|(A & L & W & B & T)]);
      fold m' in Hs', A, L, E || fold m' in Hs', A, L, T.
    + pose proof (writes_between_same m m' L) as Hw. rewrite Hw.
      split; [|split]; [split; [discriminate|tauto] | discriminate | tauto].
    + pose proof (writes_between_one m m' _ L) as Hw. rewrite Hw.
      apply window_open_spec in W. destruct Hs' as (_ & _ & He').
      split; [|split]; [split; [intros _; split; [exact A|lia] | reflexivity] | auto | congruence].
  - intros i0 rest B0 Brest W Wrest m'. subst m'. rewrite run_cons.
    pose proof (step_fields m i0) as F. apply window_open_spec in W.
    destruct Hs as (Hr & Hl & He). rewrite W, B0, Hl in F.
    change (negb (1 =? 0)) with true in F. cbn [andb] in F.
    unfold switch_buttons in F. rewrite wrap8_small in F by lia.
    split.
    + intros Hlt.
      assert (C1 : (49 <? u8Att (glob m) + 1) = false) by (apply Z.ltb_ge; lia).
      assert (C2 : (u8Att (glob m) + 1 =? u8Att (glob m)) = false) by (apply Z.eqb_neq; lia).
      rewrite C1, C2 in F. cbn [negb] in F.
      assert (G : att_fields (run (step m i0) rest) = att_fields (step m i0)).
      { apply closed_window_run. apply att_fields_inv in F.
        destruct F as (_ & _ & -> & _). exact Wrest. }
      rewrite F in G. apply att_fields_inv in G. destruct G as (G1 & _ & _ & G4 & G5).
      repeat split; try assumption. now apply writes_between_one with (v := u8Att (glob m) + 1).
    + intros H49. rewrite H49 in F.
      change (49 <? 49 + 1) with true in F. change (negb (49 =? 49)) with false in F.
      cbn iota in F.
      assert (G : att_fields (run (step m i0) rest) = att_fields (step m i0)).
      { apply closed_window_run. apply att_fields_inv in F.
        destruct F as (_ & _ & -> & _). exact Wrest. }
      rewrite F in G. apply att_fields_inv in G. destruct G as (G1 & _ & _ & G4 & G5).
      repeat split; try assumption. now apply writes_between_same.
  - intros i0 rest Wrest. rewrite run_cons.
    pose proof (closed_window_run rest (step m i0) Wrest) as G.
    apply (f_equal snd) in G. cbn [att_fields snd] in G.
    destruct (step_effect m i0 Hs) as (_ & [(_ & L & _)|(_ & L & _)]).
    + rewrite writes_between_same; [lia | congruence].
    + erewrite writes_between_one; [lia | rewrite G; exact L].
Qed.

(** ** RF power *)

Lemma loop_running (m : machine) (i : loop_in) (m' : machine) :
  loop m i = Running m' ->
  exists m1, loop_attenuation m i = Running m1 /\
    glob m' = loop_att_text
                (loop_temperature (loop_rf_power (glob m1) (adcRFPWR i)) (adcAMBTEMP i)).
Proof.
  unfold loop. destruct (loop_attenuation m i) as [m1|]; [|discriminate].
  intros [= <-]. now exists m1.
Qed.

Lemma loop_attenuation_frame (m : machine) (i : loop_in) (m1 : machine) :
  loop_attenuation m i = Running m1 ->
  as16UPwrRaw (glob m1) = as16UPwrRaw (glob m) /\
  u8IdxUPwrRaw (glob m1) = u8IdxUPwrRaw (glob m).
Proof.
  unfold loop_attenuation.
  attenuation_branches i; try discriminate; intros [= <-]; now split.
Qed.

Lemma loop_temperature_power (g : globals) (raw : Z) :
  strPwrW (loop_temperature g raw) = strPwrW g /\
  strPwrdBm (loop_temperature g raw) = strPwrdBm g /\
  fPwrdBm (loop_temperature g raw) = fPwrdBm g /\
  dPwrW (loop_temperature g raw) = dPwrW g /\
  u8Att (loop_temperature g raw) = u8Att g.
Proof.
  unfold loop_temperature, filter_insert.
  destruct (Qlt_le_dec _ _); [now repeat split|].
  destruct (Qlt_le_dec _ _); now repeat split.
Qed.

Lemma loop_att_text_power (g : globals) :
  strPwrW (loop_att_text g) = strPwrW g /\
  strPwrdBm (loop_att_text g) = strPwrdBm g /\
  fPwrdBm (loop_att_text g) = fPwrdBm g /\
  u8Att (loop_att_text g) = u8Att g.
Proof. now repeat split. Qed.

(** The RF power block, by the filtered sample. *)
Lemma loop_rf_power_cases (g : globals) (raw : Z) :
  let s := average (ring_store (as16UPwrRaw g) (u8IdxUPwrRaw g) raw) in
  let g' := loop_rf_power g raw in
  s16Tmp g' = s /\ u8Att g' = u8Att g /\
  (583 < s ->
     strPwrW g' = "RF low! "%string /\ strPwrdBm g' = " --.- dBm"%string /\
     fPwrdBm g' = linear_dBm s /\ dPwrW g' = dPwrW g) /\
  (s < 167 ->
     strPwrW g' = "RF ovl! "%string /\ strPwrdBm g' = " --.- dBm"%string /\
     fPwrdBm g' = linear_dBm s /\ dPwrW g' = dPwrW g) /\
  (167 <= s <= 583 ->
     fPwrdBm g' = (linear_dBm s + inject_Z (u8Att g))%Q /\
     strPwrdBm g' = (pad_left 5 (dtostrf (fPwrdBm g') 5 1) ++ " dBm")%string /\
     dPwrW g' = fst (autorange (fPwrdBm g')) /\
     strPwrW g' = (pad_left 5 (dtostrf (dPwrW g') 5 1)
                   ++ snd (autorange (fPwrdBm g')))%string).
Proof.
  intros s g'. subst g'. unfold loop_rf_power, filter_insert. fold s.
  destruct (583 <? s) eqn:Hlow.
  - apply Z.ltb_lt in Hlow. cbn. repeat split; intros; try reflexivity; lia.
  - apply Z.ltb_ge in Hlow. destruct (s <? 167) eqn:Hovl.
    + apply Z.ltb_lt in Hovl. cbn. repeat split; intros; try reflexivity; lia.
    + apply Z.ltb_ge in Hovl.
      destruct (autorange (linear_dBm s + inject_Z (u8Att g))) as [w suffix] eqn:A.
      cbn [s16Tmp u8Att strPwrW strPwrdBm fPwrdBm dPwrW set_rf_power].
      rewrite A. cbn [fst snd].
      repeat split; intros; try reflexivity; lia.
Qed.

(** C1. In every pass of [loop()] the validity of the power reading is
    decided on the filtered integer sample [s], not on the dBm value: for
    [s > 583] the texts are "RF low! " and the dBm placeholder, for
    [s < 167] they are "RF ovl! " and the placeholder, and otherwise the
    dBm value is the linear model at [s],
    (-2750/67) * ((s + 0.5) * (2.542/1024)) + 1820/67,
    plus the attenuation current in that pass, which is what is formatted
    for the display. *)
Theorem power_validity_on_filtered_sample (m : machine) (i : loop_in) (m' : machine) :
  loop m i = Running m' ->
  let s := average (ring_store (as16UPwrRaw (glob m)) (u8IdxUPwrRaw (glob m))
                               (adcRFPWR i)) in
  (583 < s ->
     strPwrW (glob m') = "RF low! "%string /\
     strPwrdBm (glob m') = " --.- dBm"%string) /\
  (s < 167 ->
     strPwrW (glob m') = "RF ovl! "%string /\
     strPwrdBm (glob m') = " --.- dBm"%string) /\
  (167 <= s <= 583 ->
     fPwrdBm (glob m') =
       ((-2750.0 / 67.0) * ((inject_Z s + 0.5) * (2.542 / 1024.0)) + (1820.0 / 67.0)
        + inject_Z (u8Att (glob m')))%Q /\
     strPwrdBm (glob m') =
       (pad_left 5 (dtostrf (fPwrdBm (glob m')) 5 1) ++ " dBm")%string).
Proof.
  intros L s. apply loop_running in L. destruct L as (m1 & La & G).
  apply loop_attenuation_frame in La. destruct La as (Ea & Ei).
  pose proof (loop_rf_power_cases (glob m1) (adcRFPWR i)) as P.
  rewrite Ea, Ei in P. fold s in P. cbn zeta in P.
  destruct P as (_ & Hatt & Plow & Povl & Pok).
  pose proof (loop_temperature_power (loop_rf_power (glob m1) (adcRFPWR i)) (adcAMBTEMP i))
    as (T1 & T2 & T3 & T4 & T5).
  pose proof (loop_att_text_power
                (loop_temperature (loop_rf_power (glob m1) (adcRFPWR i)) (adcAMBTEMP i)))
    as (X1 & X2 & X3 & X5).
  rewrite <- G in X1, X2, X3, X5.
  assert (G1 : strPwrW (glob m') = strPwrW (loop_rf_power (glob m1) (adcRFPWR i)))
    by congruence.
  assert (G2 : strPwrdBm (glob m') = strPwrdBm (loop_rf_power (glob m1) (adcRFPWR i)))
    by congruence.
  assert (G3 : fPwrdBm (glob m') = fPwrdBm (loop_rf_power (glob m1) (adcRFPWR i)))
    by congruence.
  assert (G5 : u8Att (glob m') = u8Att (glob m1)) by congruence.
  rewrite G1, G2, G3, G5.
  split; [|split].
  - intros H. destruct (Plow H) as (-> & -> & _). now split.
  - intros H. destruct (Povl H) as (-> & -> & _). now split.
  - intros H. destruct (Pok H) as (E1 & E2 & _).
    unfold linear_dBm, adc_volts, ADCREF in E1. split; [exact E1 | exact E2].
Qed.

(** C8. The unit of the power text is chosen by strict upper comparisons
    on the dBm value: below -30 dBm nanowatts, from -30 up to but not
    including 0 microwatts, from 0 up to but not including 30 milliwatts,
    and from 30 on watts, so -30.0 dBm is shown in uW, 0.0 dBm in mW and
    30.0 dBm in W.  The magnitude is [pow(10, dBm/10)] milliwatts scaled to
    the unit, and for a valid sample these are the value and the suffix
    that the RF power block writes into [dPwrW] and [strPwrW]. *)
Theorem autorange_buckets (dbm : Q) :
  ((dbm < -30.0)%Q ->
     autorange dbm = ((pow 10 (dbm / 10.0) * 1e6)%Q, " nW"%string)) /\
  ((-30.0 <= dbm)%Q -> (dbm < 0.0)%Q ->
     autorange dbm = ((pow 10 (dbm / 10.0) * 1e3)%Q, " uW"%string)) /\
  ((0.0 <= dbm)%Q -> (dbm < 30.0)%Q ->
     autorange dbm = (pow 10 (dbm / 10.0)%Q, " mW"%string)) /\
  ((30.0 <= dbm)%Q ->
     autorange dbm = ((pow 10 (dbm / 10.0) * 1e-3)%Q, " W "%string)) /\
  ((dbm == -30.0)%Q -> snd (autorange dbm) = " uW"%string) /\
  ((dbm == 0.0)%Q -> snd (autorange dbm) = " mW"%string) /\
  ((dbm == 30.0)%Q -> snd (autorange dbm) = " W "%string) /\
  (forall (g : globals) (raw : Z),
     let g' := loop_rf_power g raw in
     167 <= s16Tmp g' <= 583 ->
     dPwrW g' = fst (autorange (fPwrdBm g')) /\
     strPwrW g' = (pad_left 5 (dtostrf (dPwrW g') 5 1)
                   ++ snd (autorange (fPwrdBm g')))%string).
Proof.
  split; [|split; [|split; [|split; [|split; [|split; [|split]]]]]].
  1-7: unfold autorange; intros;
    destruct (Qlt_le_dec dbm (-30.0)); [try reflexivity; exfalso; lra|];
    destruct (Qlt_le_dec dbm 0.0); [try reflexivity; exfalso; lra|];
    destruct (Qlt_le_dec dbm 30.0); [try reflexivity; exfalso; lra|];
    try reflexivity; exfalso; lra.
  intros g raw g' H. subst g'.
  destruct (loop_rf_power_cases g raw) as (E & _ & _ & _ & Pok).
  rewrite E in H. apply Pok in H. tauto.
Qed.

(** The linear model with its constants as fractions. *)
Lemma linear_dBm_fractions (s : Z) :
  (linear_dBm s ==
     (-2750 # 67) * ((inject_Z s + (1 # 2)) * (2542 # 1024000)) + (1820 # 67))%Q.
Proof. unfold linear_dBm, adc_volts, ADCREF. field. Qed.

(** The linear model over the window of samples that the validity test
    lets through: it ranges over about -32.3 .. +10.1 dBm, and it is within
    the calibrated upper end of +5 dBm from sample 218 on only. *)
Lemma inject_Z_between (lo s hi : Z) :
  lo <= s <= hi -> (lo # 1 <= inject_Z s)%Q /\ (inject_Z s <= hi # 1)%Q.
Proof. intros [H1 H2]. unfold Qle, inject_Z. cbn [Qnum Qden]. lia. Qed.

Lemma linear_dBm_window (s : Z) :
  167 <= s <= 583 ->
  (-33 < linear_dBm s)%Q /\ (linear_dBm s < 10.1)%Q /\
  ((linear_dBm s <= 5)%Q <-> 218 <= s).
Proof.
  intros H. destruct (inject_Z_between 167 s 583 H) as [Q1 Q2].
  rewrite linear_dBm_fractions.
  split; [|split]; [lra | lra |].
  split.
  - intros L. destruct (Z_lt_le_dec s 218) as [C|C]; [|exact C]. exfalso.
    destruct (inject_Z_between 167 s 217) as [_ Q3]; [lia|]. lra.
  - intros L. destruct (inject_Z_between 218 s 583) as [Q3 _]; [lia|]. lra.
Qed.

(** C2 (at a failing sample). With all twenty slots and the new reading at
    167 the filtered sample is 167, inside the valid window, and the dBm
    value that the RF power block computes from it, with no attenuation,
    is about +10.1 dBm: above the calibrated upper end of +5 dBm that the
    comment at the test ([< 0,54V/ > 5dBm]) names for this threshold. *)
Theorem valid_window_above_calibrated_range :
  let g := glob (setup 0 [] (mkBootIn (fun _ => 167) (fun _ => 0) 0)) in
  let g' := loop_rf_power g 167 in
  s16Tmp g' = 167 /\ 167 <= s16Tmp g' <= 583 /\ u8Att g' = 0 /\
  (fPwrdBm g' == linear_dBm 167)%Q /\
  (5 < fPwrdBm g')%Q /\ (10 < fPwrdBm g')%Q /\
  (0.54 - adc_volts 167 > 0.12)%Q.
Proof.
  intros g g'.
  destruct (loop_rf_power_cases g 167) as (E & A & _ & _ & Pok). fold g' in E, A, Pok.
  assert (S : s16Tmp g' = 167) by (rewrite E; vm_compute; reflexivity).
  assert (W : 167 <= 167 <= 583) by lia.
  rewrite <- S in W at 2.
  rewrite E in W. destruct (Pok W) as (F & _).
  rewrite <- E, S in F. rewrite F, A.
  change (u8Att g) with 0.
  repeat apply conj; try assumption; try reflexivity; try (rewrite S; lia);
    try rewrite linear_dBm_fractions; unfold adc_volts, ADCREF;
    change (inject_Z 0) with (0 # 1)%Q; change (inject_Z 167) with (167 # 1)%Q; lra.
Qed.

(** * Further properties of the sketch *)

(** ** The pushbuttons *)

(** The mask [s16pushButtons] has the upper pushbutton in bit 0, the middle
    one in bit 1 and the lower one in bit 2, a pressed pushbutton (pin LOW)
    as 1: the three pins can be read back from it, it lies within 0..7, and
    it is 0, 1, 2 or 7 exactly for no pushbutton, the upper one alone, the
    middle one alone and all three. *)
Theorem read_buttons_bits (i : loop_in) :
  Z.testbit (read_buttons i) 0 = negb (pinPBU i) /\
  Z.testbit (read_buttons i) 1 = negb (pinPBM i) /\
  Z.testbit (read_buttons i) 2 = negb (pinPBL i) /\
  0 <= read_buttons i <= 7 /\
  (read_buttons i = 0 <-> pinPBU i = true /\ pinPBM i = true /\ pinPBL i = true) /\
  (read_buttons i = 1 <-> pinPBU i = false /\ pinPBM i = true /\ pinPBL i = true) /\
  (read_buttons i = 2 <-> pinPBU i = true /\ pinPBM i = false /\ pinPBL i = true) /\
  (read_buttons i = 7 <-> pinPBU i = false /\ pinPBM i = false /\ pinPBL i = false).
Proof.
  unfold read_buttons.
  destruct (pinPBU i), (pinPBM i), (pinPBL i); cbn;
    repeat apply conj; try reflexivity; try lia; try discriminate;
    intros; try discriminate; try tauto;
    match goal with H : _ /\ _ |- _ => destruct H as (? & ? & ?); discriminate end.
Qed.

Lemma switch_buttons_other (pb att att' : Z) :
  pb <> 1 -> pb <> 2 -> switch_buttons pb att = Some att' -> att' = att.
Proof.
  intros H1 H2. unfold switch_buttons.
  destruct pb as [|p|p]; try (now intros [= <-]).
  destruct p as [[[|[]|]|[]|]|[[]|[]|]|]; try (now intros [= <-]);
    try discriminate; contradiction.
Qed.

(** The device restarts exactly in a pass in which the window test succeeds
    with all three pushbuttons pressed; in a closed window the three
    pushbuttons are ignored like any others. *)
Theorem reset_only_by_chord (m : machine) (i : loop_in) :
  (exists ee log, loop m i = SoftReset ee log) <->
  200 < sub32 (millis1 i) (u32MillisLast (glob m)) /\
  pinPBU i = false /\ pinPBM i = false /\ pinPBL i = false.
Proof.
  pose proof (loop_cases m i) as H.
  destruct (read_buttons_bits i) as (_ & _ & _ & _ & B0 & _ & _ & B7).
  rewrite <- B7, <- window_open_spec. split.
  - intros (ee & log & L).
    destruct (window_open _ _); cbn [andb] in H;
      [destruct (negb (read_buttons i =? 0)) |]; cbn [andb] in H.
    + destruct (switch_buttons _ _) eqn:S.
      * destruct H as (m' & L' & _). congruence.
      * apply switch_buttons_reset in S. now split.
    + destruct H as (m' & L' & _). congruence.
    + destruct H as (m' & L' & _). congruence.
  - intros [W B]. rewrite W, B in H. cbn in H. eauto.
Qed.

(** ** Attenuation *)

Lemma accepted_fields (m : machine) (i : loop_in) (att : Z) :
  att_settled m ->
  200 < sub32 (millis1 i) (u32MillisLast (glob m)) ->
  read_buttons i <> 0 ->
  switch_buttons (read_buttons i) (u8Att (glob m)) = Some att ->
  att_fields (step m i) =
    (att, att, millis2 i, att,
     if att =? u8Att (glob m) then eelog m else att :: eelog m).
Proof.
  intros (Hr & Hl & He) W B S. rewrite step_fields.
  apply window_open_spec in W. apply Z.eqb_neq in B.
  rewrite W, B, S, Hl. cbn [negb andb].
  destruct (att =? u8Att (glob m)) eqn:E; cbn [negb]; [|reflexivity].
  apply Z.eqb_eq in E. congruence.
Qed.

Lemma upper_step (m : machine) (i : loop_in) :
  att_settled m ->
  200 < sub32 (millis1 i) (u32MillisLast (glob m)) ->
  read_buttons i = 1 ->
  att_fields (step m i) =
    (Z.min (u8Att (glob m) + 1) 49, Z.min (u8Att (glob m) + 1) 49, millis2 i,
     Z.min (u8Att (glob m) + 1) 49,
     if u8Att (glob m) <? 49 then (u8Att (glob m) + 1) :: eelog m else eelog m).
Proof.
  intros Hs W B. pose proof Hs as (Hr & _).
  assert (S : switch_buttons (read_buttons i) (u8Att (glob m))
              = Some (Z.min (u8Att (glob m) + 1) 49)).
  { rewrite B. unfold switch_buttons. rewrite wrap8_small by lia. f_equal.
    destruct (49 <? u8Att (glob m) + 1) eqn:E;
      [apply Z.ltb_lt in E | apply Z.ltb_ge in E]; lia. }
  assert (B0 : read_buttons i <> 0) by lia.
  rewrite (accepted_fields m i _ Hs W B0 S).
  destruct (u8Att (glob m) <? 49) eqn:E;
    [apply Z.ltb_lt in E | apply Z.ltb_ge in E].
  - replace (Z.min (u8Att (glob m) + 1) 49) with (u8Att (glob m) + 1) by lia.
    assert (C : (u8Att (glob m) + 1 =? u8Att (glob m)) = false) by (apply Z.eqb_neq; lia).
    now rewrite C.
  - replace (Z.min (u8Att (glob m) + 1) 49) with (u8Att (glob m)) by lia.
    now rewrite Z.eqb_refl.
Qed.

Lemma middle_step (m : machine) (i : loop_in) :
  att_settled m ->
  200 < sub32 (millis1 i) (u32MillisLast (glob m)) ->
  read_buttons i = 2 ->
  att_fields (step m i) =
    (Z.max (u8Att (glob m) - 1) 0, Z.max (u8Att (glob m) - 1) 0, millis2 i,
     Z.max (u8Att (glob m) - 1) 0,
     if 0 <? u8Att (glob m) then (u8Att (glob m) - 1) :: eelog m else eelog m).
Proof.
  intros Hs W B. pose proof Hs as (Hr & _).
  assert (S : switch_buttons (read_buttons i) (u8Att (glob m))
              = Some (Z.max (u8Att (glob m) - 1) 0)).
  { rewrite B. unfold switch_buttons. f_equal.
    destruct (0 <? u8Att (glob m)) eqn:E;
      [apply Z.ltb_lt in E; rewrite wrap8_small by lia | apply Z.ltb_ge in E]; lia. }
  assert (B0 : read_buttons i <> 0) by lia.
  rewrite (accepted_fields m i _ Hs W B0 S).
  destruct (0 <? u8Att (glob m)) eqn:E;
    [apply Z.ltb_lt in E | apply Z.ltb_ge in E].
  - replace (Z.max (u8Att (glob m) - 1) 0) with (u8Att (glob m) - 1) by lia.
    assert (C : (u8Att (glob m) - 1 =? u8Att (glob m)) = false) by (apply Z.eqb_neq; lia).
    now rewrite C.
  - replace (Z.max (u8Att (glob m) - 1) 0) with (u8Att (glob m)) by lia.
    now rewrite Z.eqb_refl.
Qed.

Lemma step_changes_by_button (m : machine) (i : loop_in) :
  att_settled m ->
  u8Att (glob (step m i)) <> u8Att (glob m) ->
  200 < sub32 (millis1 i) (u32MillisLast (glob m)) /\
  ((read_buttons i = 1 /\ u8Att (glob m) < 49 /\
    u8Att (glob (step m i)) = u8Att (glob m) + 1) \/
   (read_buttons i = 2 /\ 0 < u8Att (glob m) /\
    u8Att (glob (step m i)) = u8Att (glob m) - 1)).
Proof.
  intros Hs Hne.
  destruct (step_effect m i Hs) as (_ & [(A & _)|(_ & _ & W & B & _)]); [contradiction|].
  apply window_open_spec in W. split; [exact W|]. pose proof Hs as (Hr & Hl & He).
  destruct (Z.eq_dec (read_buttons i) 1) as [B1|B1].
  - left. pose proof (upper_step m i Hs W B1) as F.
    apply att_fields_inv in F. destruct F as (F & _). lia.
  - destruct (Z.eq_dec (read_buttons i) 2) as [B2|B2].
    + right. pose proof (middle_step m i Hs W B2) as F.
      apply att_fields_inv in F. destruct F as (F & _). lia.
    + exfalso. destruct (switch_buttons (read_buttons i) (u8Att (glob m))) as [att|] eqn:S.
      * pose proof (switch_buttons_other _ _ _ B1 B2 S) as ->.
        pose proof (accepted_fields m i _ Hs W B S) as F.
        apply att_fields_inv in F. destruct F as (F & _). congruence.
      * pose proof (step_fields m i) as F. apply window_open_spec in W.
        apply Z.eqb_neq in B. rewrite W, B, S in F. cbn [negb andb] in F.
        rewrite setup_fields in F.
        assert (C : (49 <? EEPROM0 m) = false) by (apply Z.ltb_ge; lia).
        rewrite C in F. apply att_fields_inv in F. destruct F as (F & _). congruence.
Qed.

(** From power-up on, one pass changes the attenuation by at most one
    step, and only when the window test succeeds with the upper pushbutton
    alone (one up, below 49) or the middle pushbutton alone (one down,
    above 0): the lower pushbutton and every pair of pushbuttons leave it
    as it is. *)
Theorem attenuation_single_step (ee : Z) (b : boot_in) (ins : list loop_in) (i : loop_in) :
  0 <= ee <= 255 ->
  let m := power_up ee b ins in
  u8Att (glob (step m i)) <> u8Att (glob m) ->
  200 < sub32 (millis1 i) (u32MillisLast (glob m)) /\
  ((read_buttons i = 1 /\ u8Att (glob m) < 49 /\
    u8Att (glob (step m i)) = u8Att (glob m) + 1) \/
   (read_buttons i = 2 /\ 0 < u8Att (glob m) /\
    u8Att (glob (step m i)) = u8Att (glob m) - 1)).
Proof.
  intros Hee m Hne. apply step_changes_by_button; [|exact Hne].
  apply power_up_settled. lia.
Qed.

(** The EEPROM is spared: from power-up on, a pass in which neither the
    upper pushbutton alone nor the middle pushbutton alone is pressed (no
    pushbutton, the lower one, any two, or all three) writes nothing to
    the EEPROM and leaves the attenuation as it is, however much time has
    passed; and so does every pass in which the window test fails. *)
Theorem eeprom_untouched_without_step (ee : Z) (b : boot_in) (ins : list loop_in)
    (i : loop_in) :
  0 <= ee <= 255 ->
  let m := power_up ee b ins in
  (read_buttons i <> 1 /\ read_buttons i <> 2) \/
  sub32 (millis1 i) (u32MillisLast (glob m)) <= 200 ->
  eelog (step m i) = eelog m /\ EEPROM0 (step m i) = EEPROM0 m /\
  u8Att (glob (step m i)) = u8Att (glob m).
Proof.
  intros Hee m H.
  assert (Hs : att_settled m) by (apply power_up_settled; lia).
  destruct (step_effect m i Hs) as (_ & [(A & L & E)|(A & _)]); [now repeat split|].
  exfalso. destruct (step_changes_by_button m i Hs A) as (W & [(B & _)|(B & _)]);
    destruct H as [(H1 & H2)|H]; try contradiction; lia.
Qed.

Lemma hold_upper_settled (ins : list loop_in) (m : machine) :
  att_settled m ->
  Forall (fun i => read_buttons i = 1) ins ->
  spaced (u32MillisLast (glob m)) ins ->
  att_settled (run m ins) /\
  u8Att (glob (run m ins)) = Z.min (u8Att (glob m) + Z.of_nat (length ins)) 49 /\
  Z.of_nat (length (eelog (run m ins))) =
    Z.of_nat (length (eelog m)) + Z.min (Z.of_nat (length ins)) (49 - u8Att (glob m)).
Proof.
  revert m. induction ins as [|i ins IH]; intros m Hs Hb Hsp.
  - pose proof Hs as (Hr & _). cbn [run fold_left length]. repeat split; try apply Hs; lia.
  - apply Forall_cons in Hb. destruct Hb as [Bi Hb]. destruct Hsp as [W Hsp].
    pose proof (upper_step m i Hs W Bi) as F. apply att_fields_inv in F.
    destruct F as (F1 & _ & F3 & _ & F5).
    assert (Hs' : att_settled (step m i)) by now apply step_effect.
    rewrite <- F3 in Hsp. destruct (IH (step m i) Hs' Hb Hsp) as (S & A & L).
    rewrite run_cons. split; [exact S|]. pose proof Hs as (Hr & _).
    rewrite A, L, F1, F5. cbn [length].
    destruct (u8Att (glob m) <? 49) eqn:E;
      [apply Z.ltb_lt in E | apply Z.ltb_ge in E]; cbn [length]; lia.
Qed.

(** Holding the upper pushbutton: after [n] passes that the window test
    accepts with the upper pushbutton alone, the attenuation is the
    smaller of the old value plus [n] and 49, it is what the EEPROM holds,
    and the EEPROM was written once per step actually taken, that is
    min(n, 49 - old) times. *)
Theorem hold_upper (ee : Z) (b : boot_in) (before ins : list loop_in) :
  0 <= ee <= 255 ->
  let m := power_up ee b before in
  Forall (fun i => read_buttons i = 1) ins ->
  spaced (u32MillisLast (glob m)) ins ->
  u8Att (glob (run m ins)) = Z.min (u8Att (glob m) + Z.of_nat (length ins)) 49 /\
  EEPROM0 (run m ins) = u8Att (glob (run m ins)) /\
  writes_between m (run m ins)
    = Z.to_nat (Z.min (Z.of_nat (length ins)) (49 - u8Att (glob m))).
Proof.
  intros Hee m Hb Hsp.
  assert (Hs : att_settled m) by (apply power_up_settled; lia).
  destruct (hold_upper_settled ins m Hs Hb Hsp) as (S & A & L).
  split; [exact A|]. split; [apply S|].
  unfold writes_between. destruct Hs as (Hr & _). lia.
Qed.

Lemma hold_middle_settled (ins : list loop_in) (m : machine) :
  att_settled m ->
  Forall (fun i => read_buttons i = 2) ins ->
  spaced (u32MillisLast (glob m)) ins ->
  att_settled (run m ins) /\
  u8Att (glob (run m ins)) = Z.max (u8Att (glob m) - Z.of_nat (length ins)) 0 /\
  Z.of_nat (length (eelog (run m ins))) =
    Z.of_nat (length (eelog m)) + Z.min (Z.of_nat (length ins)) (u8Att (glob m)).
Proof.
  revert m. induction ins as [|i ins IH]; intros m Hs Hb Hsp.
  - pose proof Hs as (Hr & _). cbn [run fold_left length]. repeat split; try apply Hs; lia.
  - apply Forall_cons in Hb. destruct Hb as [Bi Hb]. destruct Hsp as [W Hsp].
    pose proof (middle_step m i Hs W Bi) as F. apply att_fields_inv in F.
    destruct F as (F1 & _ & F3 & _ & F5).
    assert (Hs' : att_settled (step m i)) by now apply step_effect.
    rewrite <- F3 in Hsp. destruct (IH (step m i) Hs' Hb Hsp) as (S & A & L).
    rewrite run_cons. split; [exact S|]. pose proof Hs as (Hr & _).
    rewrite A, L, F1, F5. cbn [length].
    destruct (0 <? u8Att (glob m)) eqn:E;
      [apply Z.ltb_lt in E | apply Z.ltb_ge in E]; cbn [length]; lia.
Qed.

(** Holding the middle pushbutton: after [n] accepted passes with the
    middle pushbutton alone, the attenuation is the larger of the old value
    minus [n] and 0, it is what the EEPROM holds, and the EEPROM was
    written min(n, old) times. *)
Theorem hold_middle (ee : Z) (b : boot_in) (before ins : list loop_in) :
  0 <= ee <= 255 ->
  let m := power_up ee b before in
  Forall (fun i => read_buttons i = 2) ins ->
  spaced (u32MillisLast (glob m)) ins ->
  u8Att (glob (run m ins)) = Z.max (u8Att (glob m) - Z.of_nat (length ins)) 0 /\
  EEPROM0 (run m ins) = u8Att (glob (run m ins)) /\
  writes_between m (run m ins)
    = Z.to_nat (Z.min (Z.of_nat (length ins)) (u8Att (glob m))).
Proof.
  intros Hee m Hb Hsp.
  assert (Hs : att_settled m) by (apply power_up_settled; lia).
  destruct (hold_middle_settled ins m Hs Hb Hsp) as (S & A & L).
  split; [exact A|]. split; [apply S|].
  unfold writes_between. destruct Hs as (Hr & _). lia.
Qed.

(** One step up and one step down: below 49, an accepted press of the
    upper pushbutton followed by an accepted press of the middle one brings
    the attenuation and the EEPROM back to the old value, at the price of
    two EEPROM writes (the raised value, then the old one). *)
Theorem up_then_down (ee : Z) (b : boot_in) (before : list loop_in) (up down : loop_in) :
  0 <= ee <= 255 ->
  let m := power_up ee b before in
  u8Att (glob m) < 49 ->
  read_buttons up = 1 -> read_buttons down = 2 ->
  200 < sub32 (millis1 up) (u32MillisLast (glob m)) ->
  200 < sub32 (millis1 down) (millis2 up) ->
  u8Att (glob (run m [up; down])) = u8Att (glob m) /\
  EEPROM0 (run m [up; down]) = EEPROM0 m /\
  eelog (run m [up; down]) = u8Att (glob m) :: (u8Att (glob m) + 1) :: eelog m.
Proof.
  intros Hee m Hlt Bu Bd Wu Wd.
  assert (Hs : att_settled m) by (apply power_up_settled; lia).
  pose proof Hs as (Hr & Hl & He).
  pose proof (upper_step m up Hs Wu Bu) as F. apply att_fields_inv in F.
  destruct F as (F1 & _ & F3 & _ & F5).
  assert (Hs' : att_settled (step m up)) by now apply step_effect.
  rewrite <- F3 in Wd.
  pose proof (middle_step (step m up) down Hs' Wd Bd) as G. apply att_fields_inv in G.
  destruct G as (G1 & _ & _ & G4 & G5).
  change (run m [up; down]) with (step (step m up) down).
  assert (E : (u8Att (glob m) <? 49) = true) by now apply Z.ltb_lt.
  rewrite E in F5. rewrite G1, G4, G5, F1, F5.
  replace (Z.min (u8Att (glob m) + 1) 49) with (u8Att (glob m) + 1) by lia.
  assert (E' : (0 <? u8Att (glob m) + 1) = true) by (apply Z.ltb_lt; lia).
  rewrite E'. replace (u8Att (glob m) + 1 - 1) with (u8Att (glob m)) by lia.
  repeat split; lia.
Qed.

(** The reset: from power-up on, a pass accepted with all three pushbuttons
    pressed runs [setup()] again on the EEPROM as it is.  The attenuation
    afterwards is the one before, read back from the EEPROM without a
    write; both averaging arrays are filled anew with twenty fresh readings
    each, both indices are back at 0, and the timer is the reading of
    [millis()] in [setup()]. *)
Theorem chord_restarts_from_eeprom (ee : Z) (b : boot_in) (ins : list loop_in) (i : loop_in) :
  0 <= ee <= 255 ->
  let m := power_up ee b ins in
  200 < sub32 (millis1 i) (u32MillisLast (glob m)) ->
  read_buttons i = 7 ->
  step m i = setup (EEPROM0 m) (eelog m) (reboot i) /\
  u8Att (glob (step m i)) = u8Att (glob m) /\
  EEPROM0 (step m i) = EEPROM0 m /\ eelog (step m i) = eelog m /\
  as16UPwrRaw (glob (step m i)) = map (bootRFPWR (reboot i)) (seq 0 20) /\
  as16UTempRaw (glob (step m i)) = map (bootAMBTEMP (reboot i)) (seq 0 20) /\
  u8IdxUPwrRaw (glob (step m i)) = 0 /\ u8IdxUTempRaw (glob (step m i)) = 0 /\
  u32MillisLast (glob (step m i)) = bootMillis (reboot i).
Proof.
  intros Hee m W B.
  assert (Hs : att_settled m) by (apply power_up_settled; lia).
  destruct Hs as (Hr & Hl & He).
  assert (L : loop m i = SoftReset (EEPROM0 m) (eelog m)).
  { pose proof (loop_cases m i) as H. apply window_open_spec in W.
    rewrite W, B in H. exact H. }
  assert (E : step m i = setup (EEPROM0 m) (eelog m) (reboot i))
    by (unfold step; now rewrite L).
  split; [exact E|]. rewrite E.
  pose proof (setup_fields (EEPROM0 m) (eelog m) (reboot i)) as F.
  assert (C : (49 <? EEPROM0 m) = false) by (apply Z.ltb_ge; lia).
  rewrite C in F. apply att_fields_inv in F. destruct F as (F1 & _ & F3 & F4 & F5).
  rewrite F1, F3, F4, F5.
  repeat apply conj; try reflexivity; try congruence;
    unfold setup; destruct (49 <? EEPROM0 m); reflexivity.
Qed.

Lemma setup_log_ok (ee : Z) (b : boot_in) :
  0 <= ee <= 255 ->
  Forall (fun v => 0 <= v <= 49) (eelog (setup ee [] b)) /\
  match eelog (setup ee [] b) with
  | [] => EEPROM0 (setup ee [] b) = ee
  | v :: _ => EEPROM0 (setup ee [] b) = v
  end.
Proof.
  intros H. pose proof (setup_fields ee [] b) as F.
  destruct (49 <? ee); apply att_fields_inv in F;
    destruct F as (_ & _ & _ & F4 & F5); rewrite F4, F5; split; auto.
  repeat constructor; lia.
Qed.

(** What is stored is what is in use: from power-up on, after every pass
    the EEPROM cell, [u8AttLast] and [u8Att] hold the same value; every
    value ever written to the EEPROM lies within 0..49; and the cell holds
    the value written last, or the byte found at power-up while nothing
    was written. *)
Theorem eeprom_holds_attenuation (ee : Z) (b : boot_in) (ins : list loop_in) :
  0 <= ee <= 255 ->
  let m := power_up ee b ins in
  EEPROM0 m = u8Att (glob m) /\ u8AttLast (glob m) = u8Att (glob m) /\
  Forall (fun v => 0 <= v <= 49) (eelog m) /\
  match eelog m with
  | [] => EEPROM0 m = ee
  | v :: _ => EEPROM0 m = v
  end.
Proof.
  intros Hee m.
  assert (Hs : att_settled m) by (apply power_up_settled; lia).
  split; [apply Hs|]. split; [apply Hs|].
  clear Hs. subst m. unfold power_up.
  assert (H0 : att_settled (setup ee [] b)) by (apply setup_settled; lia).
  pose proof (setup_log_ok ee b Hee) as H1.
  revert H0 H1. generalize (setup ee [] b). clear b.
  induction ins as [|i ins IH]; intros m Hs Hl; [exact Hl|].
  rewrite run_cons. destruct (step_effect m i Hs) as (Hs' & [(_ & L & E)|(_ & L & _)]).
  - apply IH; [exact Hs'|]. rewrite L, E. exact Hl.
  - apply IH; [exact Hs'|]. rewrite L. destruct Hl as (Hl & _).
    split; [constructor; [apply Hs'|exact Hl] | apply Hs'].
Qed.

(** ** The measurement blocks, field by field *)

Lemma loop_attenuation_measure (m : machine) (i : loop_in) (m1 : machine) :
  loop_attenuation m i = Running m1 ->
  as16UPwrRaw (glob m1) = as16UPwrRaw (glob m) /\
  u8IdxUPwrRaw (glob m1) = u8IdxUPwrRaw (glob m) /\
  as16UTempRaw (glob m1) = as16UTempRaw (glob m) /\
  u8IdxUTempRaw (glob m1) = u8IdxUTempRaw (glob m).
Proof.
  unfold loop_attenuation.
  attenuation_branches i; try discriminate; intros [= <-]; now repeat split.
Qed.

Lemma loop_rf_power_filter (g : globals) (raw : Z) :
  as16UPwrRaw (loop_rf_power g raw) = ring_store (as16UPwrRaw g) (u8IdxUPwrRaw g) raw /\
  u8IdxUPwrRaw (loop_rf_power g raw) = ring_next (u8IdxUPwrRaw g) /\
  as16UTempRaw (loop_rf_power g raw) = as16UTempRaw g /\
  u8IdxUTempRaw (loop_rf_power g raw) = u8IdxUTempRaw g.
Proof.
  unfold loop_rf_power, filter_insert.
  destruct (583 <? _); [now repeat split|].
  destruct (_ <? 167); [now repeat split|].
  destruct (autorange _). now repeat split.
Qed.

(** The temperature block, by the filtered sample. *)
Lemma loop_temperature_cases (g : globals) (raw : Z) :
  let s := average (ring_store (as16UTempRaw g) (u8IdxUTempRaw g) raw) in
  let g' := loop_temperature g raw in
  as16UTempRaw g' = ring_store (as16UTempRaw g) (u8IdxUTempRaw g) raw /\
  u8IdxUTempRaw g' = ring_next (u8IdxUTempRaw g) /\
  as16UPwrRaw g' = as16UPwrRaw g /\ u8IdxUPwrRaw g' = u8IdxUPwrRaw g /\
  s16Tmp g' = s /\ fTamb g' = linear_celsius s /\
  ((linear_celsius s < -55.0)%Q ->
     strTempAmb g' = ("<-55 " ++ degree ++ "C")%string) /\
  ((100.0 < linear_celsius s)%Q ->
     strTempAmb g' = (">100 " ++ degree ++ "C")%string) /\
  ((-55.0 <= linear_celsius s)%Q -> (linear_celsius s <= 100.0)%Q ->
     strTempAmb g' =
       (" " ++ pad_left 3 (dtostrf (linear_celsius s) 3 0) ++ " " ++ degree ++ "C")%string).
Proof.
  intros s g'. subst g'. unfold loop_temperature, filter_insert. fold s.
  destruct (Qlt_le_dec (linear_celsius s) (-55.0)) as [L|L].
  - cbn [as16UTempRaw u8IdxUTempRaw as16UPwrRaw u8IdxUPwrRaw s16Tmp fTamb strTempAmb
         set_temperature].
    repeat apply conj; try reflexivity; intros; exfalso; lra.
  - destruct (Qlt_le_dec 100.0 (linear_celsius s)) as [H|H];
      cbn [as16UTempRaw u8IdxUTempRaw as16UPwrRaw u8IdxUPwrRaw s16Tmp fTamb strTempAmb
           set_temperature];
      repeat apply conj; try reflexivity; intros; exfalso; lra.
Qed.

Lemma loop_att_text_measure (g : globals) :
  as16UPwrRaw (loop_att_text g) = as16UPwrRaw g /\
  u8IdxUPwrRaw (loop_att_text g) = u8IdxUPwrRaw g /\
  as16UTempRaw (loop_att_text g) = as16UTempRaw g /\
  u8IdxUTempRaw (loop_att_text g) = u8IdxUTempRaw g /\
  s16Tmp (loop_att_text g) = s16Tmp g /\ fTamb (loop_att_text g) = fTamb g /\
  strTempAmb (loop_att_text g) = strTempAmb g /\
  strAtt (loop_att_text g) = (fmt_2d (u8Att g) ++ " dB")%string.
Proof. now repeat split. Qed.

(** One pass of [loop()] on the two filters and the temperature: both
    arrays take the new reading at their index, both indices advance, and
    the temperature fields come from the filtered temperature sample. *)
Lemma loop_measure (m : machine) (i : loop_in) (m' : machine) :
  loop m i = Running m' ->
  let ap := ring_store (as16UPwrRaw (glob m)) (u8IdxUPwrRaw (glob m)) (adcRFPWR i) in
  let at_ := ring_store (as16UTempRaw (glob m)) (u8IdxUTempRaw (glob m)) (adcAMBTEMP i) in
  as16UPwrRaw (glob m') = ap /\
  u8IdxUPwrRaw (glob m') = ring_next (u8IdxUPwrRaw (glob m)) /\
  as16UTempRaw (glob m') = at_ /\
  u8IdxUTempRaw (glob m') = ring_next (u8IdxUTempRaw (glob m)) /\
  s16Tmp (glob m') = average at_ /\
  fTamb (glob m') = linear_celsius (average at_) /\
  ((linear_celsius (average at_) < -55.0)%Q ->
     strTempAmb (glob m') = ("<-55 " ++ degree ++ "C")%string) /\
  ((100.0 < linear_celsius (average at_))%Q ->
     strTempAmb (glob m') = (">100 " ++ degree ++ "C")%string) /\
  ((-55.0 <= linear_celsius (average at_))%Q ->
   (linear_celsius (average at_) <= 100.0)%Q ->
     strTempAmb (glob m') =
       (" " ++ pad_left 3 (dtostrf (linear_celsius (average at_)) 3 0)
        ++ " " ++ degree ++ "C")%string).
Proof.
  intros L ap at_. apply loop_running in L. destruct L as (m1 & La & G).
  apply loop_attenuation_measure in La. destruct La as (A1 & A2 & A3 & A4).
  set (gp := loop_rf_power (glob m1) (adcRFPWR i)) in *.
  destruct (loop_rf_power_filter (glob m1) (adcRFPWR i)) as (P1 & P2 & P3 & P4).
  fold gp in P1, P2, P3, P4.
  pose proof (loop_temperature_cases gp (adcAMBTEMP i)) as T. cbn zeta in T.
  set (gt := loop_temperature gp (adcAMBTEMP i)) in *.
  rewrite P3, P4, A3, A4 in T. fold at_ in T.
  destruct T as (T1 & T2 & T3 & T4 & T5 & T6 & T7 & T8 & T9).
  destruct (loop_att_text_measure gt) as (X1 & X2 & X3 & X4 & X5 & X6 & X7 & _).
  rewrite <- G in X1, X2, X3, X4, X5, X6, X7.
  rewrite X1, X2, X3, X4, X5, X6, X7.
  assert (E1 : as16UPwrRaw gt = ap) by (subst ap; congruence).
  assert (E2 : u8IdxUPwrRaw gt = ring_next (u8IdxUPwrRaw (glob m))) by congruence.
  repeat apply conj; assumption.
Qed.

(** ** The filters from power-up on *)

Lemma average_sample (a : list Z) :
  length a = 20%nat -> Forall is_sample a -> is_sample (average a).
Proof.
  intros Hlen Ha. rewrite average_exact by assumption.
  pose proof (Zsum_samples a Ha) as Hs. rewrite Hlen in Hs.
  split; [apply Z.div_pos; lia | apply Z.div_le_upper_bound; lia].
Qed.

Lemma setup_arrays (ee : Z) (log : list Z) (b : boot_in) :
  as16UPwrRaw (glob (setup ee log b)) = map (bootRFPWR b) (seq 0 20) /\
  as16UTempRaw (glob (setup ee log b)) = map (bootAMBTEMP b) (seq 0 20) /\
  u8IdxUPwrRaw (glob (setup ee log b)) = 0 /\
  u8IdxUTempRaw (glob (setup ee log b)) = 0 /\
  s16Tmp (glob (setup ee log b)) = 0.
Proof. unfold setup. destruct (49 <? ee); now repeat split. Qed.

Lemma map_seq_samples (f : nat -> Z) (n : nat) :
  (forall k, is_sample (f k)) -> Forall is_sample (map f (seq 0 n)).
Proof.
  intros H. apply List.Forall_forall. intros x Hx.
  apply in_map_iff in Hx. destruct Hx as (k & <- & _). apply H.
Qed.

Lemma setup_filters_ok (ee : Z) (log : list Z) (b : boot_in) :
  boot_samples b ->
  filters_ok (glob (setup ee log b)) /\ is_sample (s16Tmp (glob (setup ee log b))).
Proof.
  intros Hb. unfold filters_ok.
  destruct (setup_arrays ee log b) as (-> & -> & -> & -> & ->).
  unfold is_sample.
  repeat apply conj; try reflexivity; try lia;
    apply map_seq_samples; intros k; apply Hb.
Qed.

Lemma step_filters_ok (m : machine) (i : loop_in) :
  filters_ok (glob m) -> pass_samples i ->
  filters_ok (glob (step m i)) /\ is_sample (s16Tmp (glob (step m i))).
Proof.
  intros ((Lp & Sp & Ip) & (Lt & St & It)) (Rp & Rt & Rb). unfold step.
  destruct (loop m i) as [m'|ee log] eqn:L; [|now apply setup_filters_ok].
  unfold filters_ok.
  destruct (loop_measure m i m' L) as (-> & -> & -> & -> & -> & _).
  rewrite !ring_store_length, !ring_next_mod by assumption.
  repeat apply conj; try assumption; try (now apply ring_store_samples);
    try (apply Z.mod_pos_bound; lia).
  - apply average_sample; [now rewrite ring_store_length | now apply ring_store_samples].
  - apply average_sample; [now rewrite ring_store_length | now apply ring_store_samples].
Qed.

(** As long as the converter returns 10-bit readings, after [setup()] and
    after every pass of [loop()], resets included, each of the two
    averaging arrays holds twenty readings within 0..1023, each index
    points into its array, and the filtered values (the one left in
    [s16Tmp] and the means of both arrays) are within 0..1023 again. *)
Theorem filters_stay_well_formed (ee : Z) (b : boot_in) (ins : list loop_in) :
  boot_samples b -> Forall pass_samples ins ->
  let g := glob (power_up ee b ins) in
  filters_ok g /\ is_sample (s16Tmp g) /\
  is_sample (average (as16UPwrRaw g)) /\ is_sample (average (as16UTempRaw g)).
Proof.
  intros Hb Hins g.
  assert (H : filters_ok g /\ is_sample (s16Tmp g)).
  { subst g. unfold power_up.
    pose proof (setup_filters_ok ee [] b Hb) as H0.
    revert H0. generalize (setup ee [] b).
    induction Hins as [|i ins Hi _ IH]; intros m H0; [exact H0|].
    rewrite run_cons. apply IH. now apply step_filters_ok. }
  destruct H as (F & S). split; [exact F|]. split; [exact S|].
  destruct F as ((Lp & Sp & _) & (Lt & St & _)).
  split; now apply average_sample.
Qed.

Lemma map_seq_constant (f : nat -> Z) (v : Z) (s n : nat) :
  (forall k, f k = v) -> map f (seq s n) = repeat v n.
Proof.
  intros H. revert s. induction n as [|n IH]; intros s; [reflexivity|].
  cbn [seq map repeat]. now rewrite H, IH.
Qed.

Lemma ring_store_repeat (v idx : Z) (n : nat) :
  ring_store (repeat v n) idx v = repeat v n.
Proof.
  unfold ring_store. destruct (decide (Z.to_nat idx < n)%nat) as [H|H].
  - apply list_insert_id. now apply lookup_repeat.
  - apply list_insert_ge. rewrite repeat_length. lia.
Qed.

Lemma average_repeat (v : Z) : is_sample v -> average (repeat v 20) = v.
Proof.
  intros Hv. rewrite average_exact.
  - rewrite Zsum_repeat. change (Z.of_nat 20) with 20.
    rewrite Z.mul_comm. apply Z.div_mul. lia.
  - apply repeat_length.
  - apply Forall_forall. intros x Hx. apply list_elem_of_In, repeat_spec in Hx. now subst.
Qed.

Lemma constant_arrays (vp vt ee : Z) (b : boot_in) (ins : list loop_in) :
  boot_constant vp vt b -> Forall (pass_constant vp vt) ins ->
  as16UPwrRaw (glob (power_up ee b ins)) = repeat vp 20 /\
  as16UTempRaw (glob (power_up ee b ins)) = repeat vt 20.
Proof.
  intros Hb Hins. unfold power_up.
  assert (H0 : as16UPwrRaw (glob (setup ee [] b)) = repeat vp 20 /\
               as16UTempRaw (glob (setup ee [] b)) = repeat vt 20).
  { destruct (setup_arrays ee [] b) as (-> & -> & _).
    split; apply map_seq_constant; intros k; apply Hb. }
  revert H0. generalize (setup ee [] b).
  induction Hins as [|i ins Hi _ IH]; intros m H0; [exact H0|].
  rewrite run_cons. apply IH. destruct Hi as (Cp & Ct & Cb). destruct H0 as (Ap & At).
  unfold step. destruct (loop m i) as [m'|ee' log] eqn:L.
  - destruct (loop_measure m i m' L) as (-> & _ & -> & _).
    rewrite Ap, At, Cp, Ct. split; apply ring_store_repeat.
  - destruct (setup_arrays ee' log (reboot i)) as (-> & -> & _).
    split; apply map_seq_constant; intros k; apply Cb.
Qed.

(** One pass of [loop()] on the power fields. *)
Lemma loop_power (m : machine) (i : loop_in) (m' : machine) :
  loop m i = Running m' ->
  let s := average (ring_store (as16UPwrRaw (glob m)) (u8IdxUPwrRaw (glob m))
                               (adcRFPWR i)) in
  (583 < s -> strPwrW (glob m') = "RF low! "%string /\
              fPwrdBm (glob m') = linear_dBm s) /\
  (s < 167 -> strPwrW (glob m') = "RF ovl! "%string /\
              fPwrdBm (glob m') = linear_dBm s) /\
  (167 <= s <= 583 ->
     fPwrdBm (glob m') = (linear_dBm s + inject_Z (u8Att (glob m')))%Q) /\
  strAtt (glob m') = (fmt_2d (u8Att (glob m')) ++ " dB")%string.
Proof.
  intros L s. apply loop_running in L. destruct L as (m1 & La & G).
  apply loop_attenuation_frame in La. destruct La as (Ea & Ei).
  pose proof (loop_rf_power_cases (glob m1) (adcRFPWR i)) as P.
  rewrite Ea, Ei in P. fold s in P. cbn zeta in P.
  set (gp := loop_rf_power (glob m1) (adcRFPWR i)) in *.
  destruct P as (_ & Hatt & Plow & Povl & Pok).
  destruct (loop_temperature_power gp (adcAMBTEMP i)) as (T1 & _ & T3 & _ & T5).
  set (gt := loop_temperature gp (adcAMBTEMP i)) in *.
  destruct (loop_att_text_power gt) as (X1 & _ & X3 & X5).
  destruct (loop_att_text_measure gt) as (_ & _ & _ & _ & _ & _ & _ & X8).
  rewrite <- G in X1, X3, X5, X8.
  assert (A : u8Att (glob m') = u8Att (glob m1)) by congruence.
  assert (SW : strPwrW (glob m') = strPwrW gp) by congruence.
  assert (FD : fPwrdBm (glob m') = fPwrdBm gp) by congruence.
  assert (SA : strAtt (glob m') = (fmt_2d (u8Att (glob m')) ++ " dB")%string)
    by (rewrite X8; congruence).
  rewrite SW, FD, A. clear SW FD.
  repeat apply conj.
  - intros H. destruct (Plow H) as (-> & _ & -> & _). now split.
  - intros H. destruct (Povl H) as (-> & _ & -> & _). now split.
  - intros H. now destruct (Pok H) as (-> & _).
  - rewrite <- A. exact SA.
Qed.

(** A steady input is reported at once: when the converter returns the
    same two 10-bit readings from power-up on, then in every pass, the
    first one included, both arrays hold that reading in all twenty slots,
    the filtered temperature sample is exactly the temperature reading,
    and for a power reading within the valid window the dBm value is the
    linear model at exactly that reading plus the attenuation. *)
Theorem steady_input_reading (vp vt ee : Z) (b : boot_in) (ins : list loop_in)
    (i : loop_in) (m' : machine) :
  is_sample vp -> is_sample vt ->
  boot_constant vp vt b -> Forall (pass_constant vp vt) ins -> pass_constant vp vt i ->
  loop (power_up ee b ins) i = Running m' ->
  as16UPwrRaw (glob m') = repeat vp 20 /\ as16UTempRaw (glob m') = repeat vt 20 /\
  s16Tmp (glob m') = vt /\ fTamb (glob m') = linear_celsius vt /\
  (167 <= vp <= 583 ->
     fPwrdBm (glob m') = (linear_dBm vp + inject_Z (u8Att (glob m')))%Q).
Proof.
  intros Hp Ht Hb Hins (Cp & Ct & _) L.
  destruct (constant_arrays vp vt ee b ins Hb Hins) as (Ap & At).
  destruct (loop_measure _ i m' L) as (M1 & _ & M3 & _ & M5 & M6 & _).
  destruct (loop_power _ i m' L) as (_ & _ & P & _).
  rewrite Ap, Cp, ring_store_repeat in M1, P.
  rewrite At, Ct, ring_store_repeat in M3, M5, M6.
  rewrite average_repeat in M5, M6, P by assumption.
  repeat apply conj; assumption.
Qed.

(** ** Temperature *)

Lemma linear_celsius_fractions (s : Z) :
  (linear_celsius s ==
     (15500 # 33) * ((inject_Z s + (1 # 2)) * (2542 # 1024000)) - (785 # 3))%Q.
Proof. unfold linear_celsius, adc_volts, ADCREF. field. Qed.

Lemma inject_Z_le (lo s : Z) : lo <= s -> (lo # 1 <= inject_Z s)%Q.
Proof. intros H. unfold Qle, inject_Z. cbn [Qnum Qden]. lia. Qed.

Lemma inject_Z_ge (s hi : Z) : s <= hi -> (inject_Z s <= hi # 1)%Q.
Proof. intros H. unfold Qle, inject_Z. cbn [Qnum Qden]. lia. Qed.

Lemma linear_celsius_thresholds (s : Z) :
  (s <= 176 -> (linear_celsius s < -55.0)%Q) /\
  (177 <= s -> (-55.0 <= linear_celsius s)%Q) /\
  (s <= 309 -> (linear_celsius s <= 100.0)%Q) /\
  (310 <= s -> (100.0 < linear_celsius s)%Q).
Proof.
  rewrite linear_celsius_fractions. repeat apply conj; intros H.
  - apply inject_Z_ge in H. lra.
  - apply inject_Z_le in H. lra.
  - apply inject_Z_ge in H. lra.
  - apply inject_Z_le in H. lra.
Qed.

(** The temperature text by the filtered temperature sample [s] of the
    pass: "<-55 degC" exactly for [s <= 176], ">100 degC" exactly for
    [s >= 310], and for 177..309 the value of the linear model, which then
    lies within -55..100, rounded by [dtostrf] to no decimals and
    right-justified in three characters.  There is no other test on the
    temperature sample. *)
Theorem temperature_text_by_sample (m : machine) (i : loop_in) (m' : machine) :
  loop m i = Running m' ->
  let s := average (ring_store (as16UTempRaw (glob m)) (u8IdxUTempRaw (glob m))
                               (adcAMBTEMP i)) in
  fTamb (glob m') = linear_celsius s /\
  (s <= 176 -> strTempAmb (glob m') = ("<-55 " ++ degree ++ "C")%string) /\
  (310 <= s -> strTempAmb (glob m') = (">100 " ++ degree ++ "C")%string) /\
  (177 <= s <= 309 ->
     (-55.0 <= fTamb (glob m'))%Q /\ (fTamb (glob m') <= 100.0)%Q /\
     strTempAmb (glob m') =
       (" " ++ pad_left 3 (dtostrf (fTamb (glob m')) 3 0) ++ " " ++ degree ++ "C")%string).
Proof.
  intros L s.
  destruct (loop_measure m i m' L) as (_ & _ & _ & _ & _ & F & Tlo & Thi & Tok).
  fold s in F, Tlo, Thi, Tok.
  destruct (linear_celsius_thresholds s) as (C1 & C2 & C3 & C4).
  rewrite F. split; [reflexivity|]. split; [|split].
  - intros H. apply Tlo, C1, H.
  - intros H. apply Thi, C4, H.
  - intros [H1 H2]. specialize (C2 H1). specialize (C3 H2).
    split; [exact C2|]. split; [exact C3|]. now apply Tok.
Qed.

(** ** Calibration *)

(** Both linear models are strictly monotone in the filtered sample: the
    dBm value falls and the temperature rises with it, by more than 0.10
    and less than 0.11 dB, and by more than 1.16 and less than 1.17 degC,
    per count of the converter.  (The exact slopes are about 0.10189 dB
    and 1.16599 degC per count; the bounds leave a margin that is large
    against the rounding of the [float] arithmetic.) *)
Theorem calibration_monotone (s1 s2 : Z) :
  s1 < s2 ->
  (linear_dBm s2 < linear_dBm s1)%Q /\ (linear_celsius s1 < linear_celsius s2)%Q /\
  (0.10 * inject_Z (s2 - s1) < linear_dBm s1 - linear_dBm s2)%Q /\
  (linear_dBm s1 - linear_dBm s2 < 0.11 * inject_Z (s2 - s1))%Q /\
  (1.16 * inject_Z (s2 - s1) < linear_celsius s2 - linear_celsius s1)%Q /\
  (linear_celsius s2 - linear_celsius s1 < 1.17 * inject_Z (s2 - s1))%Q.
Proof.
  intros H.
  assert (Q : (inject_Z s1 < inject_Z s2)%Q) by now rewrite <- Zlt_Qlt.
  unfold Z.sub. rewrite !linear_dBm_fractions, !linear_celsius_fractions, inject_Z_plus,
    inject_Z_opp.
  repeat apply conj; lra.
Qed.

(** ** The dBm value of a valid reading *)

(** From power-up on, the dBm value of a pass whose filtered sample [s]
    is within the valid window lies strictly between -33 dBm and
    +59.1 dBm: the linear model over the window, with an attenuation of
    0..49 dB added. *)
Theorem valid_reading_bounds (ee : Z) (b : boot_in) (ins : list loop_in)
    (i : loop_in) (m' : machine) :
  0 <= ee <= 255 ->
  let m := power_up ee b ins in
  loop m i = Running m' ->
  let s := average (ring_store (as16UPwrRaw (glob m)) (u8IdxUPwrRaw (glob m))
                               (adcRFPWR i)) in
  167 <= s <= 583 ->
  (-33 < fPwrdBm (glob m'))%Q /\ (fPwrdBm (glob m') < 59.1)%Q.
Proof.
  intros Hee m L s Hs.
  assert (Hm : att_settled m) by (apply power_up_settled; lia).
  assert (Hm' : att_settled m').
  { pose proof (step_effect m i Hm) as (H & _). unfold step in H. now rewrite L in H. }
  destruct Hm' as (Hr & _).
  destruct (loop_power m i m' L) as (_ & _ & P & _). fold s in P.
  rewrite (P Hs).
  destruct (linear_dBm_window s Hs) as (W1 & W2 & _).
  destruct (inject_Z_between 0 _ 49 Hr) as (A1 & A2).
  split; lra.
Qed.

(** ** The attenuation text *)

Lemma fmt_2d_length (z : Z) : 0 <= z <= 99 -> String.length (fmt_2d z) = 2%nat.
Proof.
  intros H.
  assert (A : forallb (fun n => Nat.eqb (String.length (fmt_2d (Z.of_nat n))) 2)
                      (seq 0 100) = true) by (vm_compute; reflexivity).
  rewrite forallb_forall in A.
  specialize (A (Z.to_nat z)). rewrite Z2Nat.id in A by lia.
  apply Nat.eqb_eq, A. apply in_seq. lia.
Qed.

Lemma string_length_append (s t : string) :
  String.length (s ++ t)%string = (String.length s + String.length t)%nat.
Proof. induction s as [|c s IH]; cbn; [reflexivity|]. now rewrite IH. Qed.

(** From power-up on, the attenuation text always has exactly five
    characters, as its buffer [strAtt[6]] requires, and after a pass it
    shows the attenuation as that pass left it, right-justified in two
    characters before " dB". *)
Theorem attenuation_text (ee : Z) (b : boot_in) (ins : list loop_in) :
  0 <= ee <= 255 ->
  let m := power_up ee b ins in
  String.length (strAtt (glob m)) = 5%nat /\
  (forall i m', loop m i = Running m' ->
     strAtt (glob m') = (fmt_2d (u8Att (glob m')) ++ " dB")%string /\
     String.length (fmt_2d (u8Att (glob m'))) = 2%nat).
Proof.
  intros Hee m.
  assert (P : forall m0 i m', att_settled m0 -> loop m0 i = Running m' ->
                strAtt (glob m') = (fmt_2d (u8Att (glob m')) ++ " dB")%string /\
                String.length (fmt_2d (u8Att (glob m'))) = 2%nat).
  { intros m0 i m' H0 L.
    destruct (loop_power m0 i m' L) as (_ & _ & _ & T). split; [exact T|].
    pose proof (step_effect m0 i H0) as (H & _). unfold step in H. rewrite L in H.
    destruct H as (Hr & _). apply fmt_2d_length. lia. }
  split.
  - subst m. unfold power_up.
    assert (H0 : att_settled (setup ee [] b)) by (apply setup_settled; lia).
    assert (L0 : String.length (strAtt (glob (setup ee [] b))) = 5%nat)
      by (unfold setup; destruct (49 <? ee); reflexivity).
    revert H0 L0. generalize (setup ee [] b).
    induction ins as [|i ins IH]; intros m0 H0 L0; [exact L0|].
    rewrite run_cons. apply IH; [now apply step_effect|].
    unfold step. destruct (loop m0 i) as [m'|ee' log] eqn:L.
    + destruct (P m0 i m' H0 L) as (-> & E).
      rewrite string_length_append, E. reflexivity.
    + unfold setup. destruct (49 <? ee'); reflexivity.
  - intros i m' L. apply (P m i m'); [|exact L]. apply power_up_settled. lia.
Qed.

(** ** The filter as a moving average *)

Lemma filter_insert_all_app (a : list Z) (idx last : Z) (pre rs : list Z) :
  filter_insert_all a idx last (pre ++ rs) =
  filter_insert_all (fst (fst (filter_insert_all a idx last pre)))
                    (snd (fst (filter_insert_all a idx last pre)))
                    (snd (filter_insert_all a idx last pre)) rs.
Proof.
  unfold filter_insert_all. rewrite fold_left_app.
  now destruct (fold_left _ pre _) as [[a' idx'] last'].
Qed.

Lemma filter_insert_all_shape (raws : list Z) (a : list Z) (idx last : Z) :
  length a = 20%nat -> 0 <= idx < 20 ->
  length (fst (fst (filter_insert_all a idx last raws))) = 20%nat /\
  0 <= snd (fst (filter_insert_all a idx last raws)) < 20.
Proof.
  induction raws as [|r raws IH] using rev_ind; intros Hlen Hidx; [now split|].
  rewrite filter_insert_all_snoc. unfold filter_insert. cbn [fst snd].
  destruct IH as (L & I); [assumption..|].
  rewrite ring_store_length, ring_next_mod by assumption.
  split; [exact L | apply Z.mod_pos_bound; lia].
Qed.

Lemma filter_insert_all_index (raws : list Z) (a : list Z) (idx last : Z) :
  length a = 20%nat -> 0 <= idx < 20 ->
  snd (fst (filter_insert_all a idx last raws)) = (idx + Z.of_nat (length raws)) mod 20.
Proof.
  intros Hlen Hidx. induction raws as [|r raws IH] using rev_ind.
  - cbn. rewrite Z.add_0_r, Z.mod_small; lia.
  - rewrite length_app. cbn [length].
    rewrite filter_insert_all_snoc. unfold filter_insert. cbn [fst snd].
    destruct (filter_insert_all_shape raws a idx last Hlen Hidx) as (_ & I).
    rewrite ring_next_mod by assumption. rewrite IH.
    rewrite Zplus_mod_idemp_l. f_equal. lia.
Qed.

Lemma ring_positions_differ (idx j k : Z) :
  0 <= j < k -> k < 20 -> (idx + j) mod 20 <> (idx + k) mod 20.
Proof. clear pow dtostrf. intros Hj Hk. Z.div_mod_to_equations. lia. Qed.

(** After the insertion of at most twenty readings, the slots from the
    first write position onwards, cyclically, hold them in order. *)
Lemma filter_fill_list (rs : list Z) (a : list Z) (idx last : Z) :
  length a = 20%nat -> 0 <= idx < 20 -> (length rs <= 20)%nat ->
  forall j : nat, (j < length rs)%nat ->
    fst (fst (filter_insert_all a idx last rs)) !! Z.to_nat ((idx + Z.of_nat j) mod 20)
    = rs !! j.
Proof.
  clear pow dtostrf.
  intros Hlen Hidx. induction rs as [|r rs IH] using rev_ind; intros Hk j Hj;
    [cbn in Hj; lia|].
  rewrite length_app in Hk, Hj. cbn [length] in Hk, Hj.
  rewrite filter_insert_all_snoc. unfold filter_insert. cbn [fst snd].
  destruct (filter_insert_all_shape rs a idx last Hlen Hidx) as (L & I).
  pose proof (filter_insert_all_index rs a idx last Hlen Hidx) as Hi.
  unfold ring_store. rewrite Hi.
  assert (Hr : forall x, 0 <= (idx + x) mod 20 < 20) by (intros; apply Z.mod_pos_bound; lia).
  destruct (decide (j = length rs)) as [->|Hne].
  - rewrite list_lookup_insert_eq by (rewrite L; specialize (Hr (Z.of_nat (length rs))); lia).
    rewrite lookup_app_r by lia. now rewrite Nat.sub_diag.
  - rewrite list_lookup_insert_ne.
    + rewrite lookup_app_l by lia. apply IH; lia.
    + pose proof (ring_positions_differ idx (Z.of_nat j) (Z.of_nat (length rs))) as D.
      pose proof (Hr (Z.of_nat j)). pose proof (Hr (Z.of_nat (length rs))).
      intros E. apply D; lia.
Qed.

(** Twenty insertions leave the twenty readings in the array, rotated by
    the write index. *)
Lemma filter_full_rotation (rs a : list Z) (idx last : Z) :
  length a = 20%nat -> 0 <= idx < 20 -> length rs = 20%nat ->
  fst (fst (filter_insert_all a idx last rs))
  = drop (20 - Z.to_nat idx) rs ++ take (20 - Z.to_nat idx) rs.
Proof.
  intros Hlen Hidx Hrs.
  destruct (filter_insert_all_shape rs a idx last Hlen Hidx) as (L & _).
  pose proof (filter_fill_list rs a idx last Hlen Hidx) as F.
  apply list_eq. intros p.
  destruct (decide (p < 20)%nat) as [Hp|Hp].
  - destruct (decide (p < Z.to_nat idx)%nat) as [Hlt|Hge].
    + rewrite lookup_app_l by (rewrite length_drop; lia).
      rewrite lookup_drop.
      rewrite <- (F ltac:(lia) (20 - Z.to_nat idx + p)%nat) by lia.
      f_equal. replace (idx + Z.of_nat (20 - Z.to_nat idx + p)) with (Z.of_nat p + 1 * 20) by lia.
      rewrite Z.mod_add, Z.mod_small by lia. lia.
    + rewrite lookup_app_r by (rewrite length_drop; lia).
      rewrite length_drop, lookup_take, decide_True by lia.
      replace (p - (length rs - (20 - Z.to_nat idx)))%nat with (p - Z.to_nat idx)%nat by lia.
      rewrite <- (F ltac:(lia) (p - Z.to_nat idx)%nat) by lia.
      f_equal. replace (idx + Z.of_nat (p - Z.to_nat idx)) with (Z.of_nat p) by lia.
      rewrite Z.mod_small by lia. lia.
  - rewrite !lookup_ge_None_2; [reflexivity | | lia].
    rewrite length_app, length_drop, length_take. lia.
Qed.

(** The filtered value is the mean of the last twenty readings: whatever
    the array held and wherever the index stood, and whatever was inserted
    before, after the insertion of twenty 10-bit readings the array holds
    exactly these, rotated by the write index (the j-th of them in slot
    index + j modulo twenty), the index is where it was before the twenty
    insertions, and the last insertion returns their sum divided by
    twenty, truncated. *)
Theorem moving_average (a : list Z) (idx last : Z) (pre rs : list Z) :
  length a = 20%nat -> 0 <= idx < 20 ->
  length rs = 20%nat -> Forall is_sample rs ->
  let st := filter_insert_all a idx last (pre ++ rs) in
  let i0 := snd (fst (filter_insert_all a idx last pre)) in
  snd st = Zsum rs ÷ 20 /\
  Zsum (fst (fst st)) = Zsum rs /\
  (forall v, v ∈ fst (fst st) <-> v ∈ rs) /\
  snd (fst st) = i0 /\
  fst (fst st) = drop (20 - Z.to_nat i0) rs ++ take (20 - Z.to_nat i0) rs /\
  (forall j : nat, (j < 20)%nat ->
     fst (fst st) !! Z.to_nat ((i0 + Z.of_nat j) mod 20) = rs !! j).
Proof.
  intros Hlen Hidx Hrs Hs st i0. subst st. rewrite filter_insert_all_app.
  destruct (filter_insert_all_shape pre a idx last Hlen Hidx) as (L & I).
  set (a0 := fst (fst (filter_insert_all a idx last pre))) in *.
  fold i0 in I |- *.
  set (l0 := snd (filter_insert_all a idx last pre)).
  pose proof (filter_full_rotation rs a0 i0 l0 L I Hrs) as R.
  assert (Hsum : Zsum (fst (fst (filter_insert_all a0 i0 l0 rs))) = Zsum rs).
  { rewrite R, Zsum_app, Z.add_comm, <- Zsum_app. now rewrite take_drop. }
  assert (Hsam : Forall is_sample (fst (fst (filter_insert_all a0 i0 l0 rs)))).
  { rewrite R. apply Forall_app. split; [now apply Forall_drop | now apply Forall_take]. }
  assert (Hl : length (fst (fst (filter_insert_all a0 i0 l0 rs))) = 20%nat)
    by now apply filter_insert_all_shape.
  repeat apply conj.
  - destruct rs as [|r rs'] using rev_ind; [discriminate|]. clear IHrs'.
    rewrite filter_insert_all_snoc in Hsum, Hsam, Hl |- *.
    unfold filter_insert in *. cbn [fst snd] in *.
    rewrite average_exact by assumption. rewrite Hsum.
    symmetry. apply Z.quot_div_nonneg; [|lia]. now apply Zsum_samples in Hs.
  - exact Hsum.
  - intros v. rewrite R, elem_of_app.
    assert (E : v ∈ rs <-> v ∈ take (20 - Z.to_nat i0) rs \/ v ∈ drop (20 - Z.to_nat i0) rs)
      by now rewrite <- elem_of_app, take_drop.
    tauto.
  - rewrite filter_insert_all_index, Hrs by assumption.
    change (Z.of_nat 20) with (1 * 20).
    rewrite Z.mod_add, Z.mod_small; lia.
  - exact R.
  - intros j Hj. apply filter_fill_list; try assumption; lia.
Qed.

End Sketch.

(** * The properties at sample inputs *)

Lemma power_validity_witness :
  let m := setup 0 [] boot_sample in
  let i := press_upper 1000 in
  let m' := step pow_whole dtostrf_whole m i in
  loop pow_whole dtostrf_whole m i = Running m' /\
  u8Att (glob m') = 1 /\
  fPwrdBm (glob m') =
    ((-2750.0 / 67.0) * ((inject_Z 400 + 0.5) * (2.542 / 1024.0)) + (1820.0 / 67.0)
     + inject_Z 1)%Q /\
  (-12.65 < fPwrdBm (glob m'))%Q /\ (fPwrdBm (glob m') < -12.64)%Q.
Proof.
  intros m i m'.
  assert (L : loop pow_whole dtostrf_whole m i = Running m') by (vm_compute; reflexivity).
  split; [exact L|]. split; [vm_compute; reflexivity|].
  destruct (power_validity_on_filtered_sample pow_whole dtostrf_whole m i m' L)
    as (_ & _ & H).
  destruct H as (E & _); [vm_compute; split; discriminate|].
  split; [exact E|]. rewrite E. split; vm_compute; reflexivity.
Defined.

Lemma accumulator_witness :
  Forall is_sample (repeat 1023 20) /\
  accumulate (repeat 1023 20) = 20460 /\ average (repeat 1023 20) = 1023.
Proof.
  assert (S : Forall is_sample (repeat 1023 20)).
  { apply Forall_forall. intros x Hx. apply list_elem_of_In, repeat_spec in Hx.
    subst. unfold is_sample. lia. }
  split; [exact S|].
  destruct (accumulator_never_overflows pow_whole dtostrf_whole (repeat 1023 20) eq_refl S)
    as (Hacc & _ & _ & Havg & _).
  split; [exact (proj1 (Hacc 20%nat (le_n 20))) | exact Havg].
Defined.

Lemma filter_steady_state_witness :
  filter_insert_all (map Z.of_nat (seq 0 20)) 7 0 (repeat 512 20)
  = (repeat 512 20, 7, 512).
Proof.
  assert (Hlen : length (map Z.of_nat (seq 0 20)) = 20%nat) by reflexivity.
  assert (Hidx : 0 <= 7 < 20) by lia.
  assert (Hv : is_sample 512) by (unfold is_sample; lia).
  exact (proj1 (filter_steady_state (map Z.of_nat (seq 0 20)) 7 0 512 Hlen Hidx Hv)).
Defined.


Lemma setup_witness :
  49 < 200 /\ 7 <= 49 /\
  eelog (setup 200 [] boot_sample) = [0] /\ u8Att (glob (setup 200 [] boot_sample)) = 0 /\
  eelog (setup 7 [] boot_sample) = [] /\ u8Att (glob (setup 7 [] boot_sample)) = 7.
Proof.
  destruct (setup_restores_attenuation 200 [] boot_sample) as (Hbad & _ & _).
  destruct (setup_restores_attenuation 7 [] boot_sample) as (_ & Hok & _).
  assert (B : 49 < 200) by lia. assert (G : 7 <= 49) by lia.
  destruct (Hbad B) as (_ & L1 & A1 & _). destruct (Hok G) as (_ & L2 & A2 & _).
  repeat apply conj; assumption.
Defined.

Lemma attenuation_range_witness :
  0 <= 200 <= 255 /\
  0 <= u8Att (glob (power_up pow_whole dtostrf_whole 200 boot_sample
                              [press_middle 1000; press_upper 2000])) <= 49.
Proof.
  assert (H : 0 <= 200 <= 255) by lia.
  split; [exact H|].
  apply (attenuation_within_range pow_whole dtostrf_whole 200 boot_sample
           [press_middle 1000; press_upper 2000] H).
Defined.

Lemma timer_reset_witness :
  let m := setup 0 [] boot_sample in
  200 < sub32 (millis1 (press_lower 1000)) (u32MillisLast (glob m)) /\
  read_buttons (press_lower 1000) = 4 /\
  exists m', loop pow_whole dtostrf_whole m (press_lower 1000) = Running m' /\
             u32MillisLast (glob m') = 1001.
Proof.
  intros m.
  assert (W : 200 < sub32 (millis1 (press_lower 1000)) (u32MillisLast (glob m)))
    by (vm_compute; reflexivity).
  split; [exact W|]. split; [reflexivity|].
  destruct (timer_reset_when_accepted pow_whole dtostrf_whole m (press_lower 1000))
    as (H & _ & _).
  apply H; [exact W | vm_compute; discriminate | vm_compute; discriminate].
Defined.

Lemma eeprom_written_witness :
  let m := power_up pow_whole dtostrf_whole 5 boot_sample [] in
  let burst := [press_upper 1000; press_upper 1050; press_upper 1100] in
  0 <= 5 <= 255 /\
  200 < sub32 (millis1 (press_upper 1000)) (u32MillisLast (glob m)) /\
  eelog (run pow_whole dtostrf_whole m burst) = [6] /\
  writes_between m (run pow_whole dtostrf_whole m burst) = 1%nat.
Proof.
  intros m burst.
  assert (H : 0 <= 5 <= 255) by lia.
  assert (W : 200 < sub32 (millis1 (press_upper 1000)) (u32MillisLast (glob m)))
    by (vm_compute; reflexivity).
  split; [exact H|]. split; [exact W|].
  destruct (eeprom_written_when_changed pow_whole dtostrf_whole 5 boot_sample [] H)
    as (_ & B & _).
  destruct (B (press_upper 1000) [press_upper 1050; press_upper 1100]) as (Hlt & _).
  - reflexivity.
  - repeat constructor.
  - exact W.
  - repeat constructor; vm_compute; discriminate.
  - destruct Hlt as (L & _ & _ & N); [vm_compute; reflexivity|].
    split; [exact L | exact N].
Defined.

Lemma autorange_witness :
  snd (autorange pow_whole (-30.0)%Q) = " uW"%string /\
  snd (autorange pow_whole 0.0%Q) = " mW"%string /\
  snd (autorange pow_whole 30.0%Q) = " W "%string /\
  (fst (autorange pow_whole (-40.0)%Q) == 100)%Q /\
  snd (autorange pow_whole (-40.0)%Q) = " nW"%string.
Proof.
  destruct (autorange_buckets pow_whole dtostrf_whole (-30.0)%Q) as (_ & _ & _ & _ & A & _).
  destruct (autorange_buckets pow_whole dtostrf_whole 0.0%Q) as (_ & _ & _ & _ & _ & B & _).
  destruct (autorange_buckets pow_whole dtostrf_whole 30.0%Q) as (_ & _ & _ & _ & _ & _ & C & _).
  destruct (autorange_buckets pow_whole dtostrf_whole (-40.0)%Q) as (D & _).
  repeat apply conj.
  - apply A. reflexivity.
  - apply B. reflexivity.
  - apply C. reflexivity.
  - rewrite D; [vm_compute; reflexivity | vm_compute; reflexivity].
  - rewrite D; [reflexivity | vm_compute; reflexivity].
Defined.

(** * Where the code differs *)

(** C4, counterexample.  With the pushbuttons released and the window open
    (1000 ms after [setup()] set the timer to 0) the pass leaves the timer
    at 0; and at exactly 200 ms, which is "at least 200 ms", a press of the
    upper pushbutton is not accepted: timer and attenuation keep their
    values. *)
Lemma timer_kept_when_released :
  let m := setup 0 [] boot_sample in
  (200 <= sub32 (millis1 (released 1000)) (u32MillisLast (glob m)) /\
   window_open (millis1 (released 1000)) (u32MillisLast (glob m)) = true /\
   read_buttons (released 1000) = 0 /\
   loop pow_whole dtostrf_whole m (released 1000)
     = Running (step pow_whole dtostrf_whole m (released 1000)) /\
   u32MillisLast (glob (step pow_whole dtostrf_whole m (released 1000))) = 0 /\
   millis1 (released 1000) = 1000 /\ millis2 (released 1000) = 1001) /\
  (200 <= sub32 (millis1 (press_upper 200)) (u32MillisLast (glob m)) /\
   read_buttons (press_upper 200) = 1 /\
   loop pow_whole dtostrf_whole m (press_upper 200)
     = Running (step pow_whole dtostrf_whole m (press_upper 200)) /\
   u32MillisLast (glob (step pow_whole dtostrf_whole m (press_upper 200))) = 0 /\
   u8Att (glob (step pow_whole dtostrf_whole m (press_upper 200))) = 0).
Proof. vm_compute. repeat split; discriminate. Defined.

(** C3, counterexample.  At attenuation 49 a burst of three presses of the
    upper pushbutton within 100 ms, the first in an open window, stores
    nothing; and so does such a burst at attenuation 0 when it starts 49 ms
    after a press of the lower pushbutton was accepted, although all of it
    lies within one window of 200 ms. *)
Lemma burst_without_stored_increment :
  (let m := power_up pow_whole dtostrf_whole 49 boot_sample [] in
   let burst := [press_upper 1000; press_upper 1050; press_upper 1100] in
   Forall (fun i => read_buttons i = 1) burst /\
   window_open (millis1 (press_upper 1000)) (u32MillisLast (glob m)) = true /\
   writes_between m (run pow_whole dtostrf_whole m burst) = 0%nat /\
   eelog (run pow_whole dtostrf_whole m burst) = [] /\
   EEPROM0 (run pow_whole dtostrf_whole m burst) = 49 /\
   u8Att (glob (run pow_whole dtostrf_whole m burst)) = 49) /\
  (let m := power_up pow_whole dtostrf_whole 0 boot_sample [press_lower 1000] in
   let burst := [press_upper 1050; press_upper 1100; press_upper 1150] in
   Forall (fun i => read_buttons i = 1) burst /\
   u32MillisLast (glob m) = 1001 /\
   writes_between m (run pow_whole dtostrf_whole m burst) = 0%nat /\
   eelog (run pow_whole dtostrf_whole m burst) = [] /\
   u8Att (glob (run pow_whole dtostrf_whole m burst)) = 0).
Proof.
  split; intros m burst; (split; [repeat constructor|]); vm_compute; repeat split.
Defined.

(** * The further properties at sample inputs *)

Lemma boot_sample_samples : boot_samples boot_sample.
Proof. intros k. unfold is_sample. cbn. lia. Qed.

Lemma pass_sample_samples (pbu pbm pbl : bool) (t : Z) : pass_samples (pass pbu pbm pbl t).
Proof.
  unfold pass_samples, is_sample. cbn.
  repeat split; try lia; apply boot_sample_samples.
Qed.

Lemma boot_sample_constant : boot_constant 400 250 boot_sample.
Proof. intros k. now split. Qed.

Lemma read_buttons_bits_witness :
  read_buttons (press_upper 1000) = 1 /\ read_buttons (press_all 1000) = 7 /\
  Z.testbit (read_buttons (press_lower 1000)) 2 = true.
Proof.
  destruct (read_buttons_bits (press_upper 1000)) as (_ & _ & _ & _ & _ & U & _).
  destruct (read_buttons_bits (press_all 1000)) as (_ & _ & _ & _ & _ & _ & _ & A).
  destruct (read_buttons_bits (press_lower 1000)) as (_ & _ & L & _).
  split; [apply U; now repeat split|]. split; [apply A; now repeat split | exact L].
Defined.

Lemma reset_only_by_chord_witness :
  exists ee log,
    loop pow_whole dtostrf_whole (setup 5 [] boot_sample) (press_all 1000)
    = SoftReset ee log.
Proof.
  apply (proj2 (reset_only_by_chord pow_whole dtostrf_whole
                  (setup 5 [] boot_sample) (press_all 1000))).
  split; [vm_compute; reflexivity | now repeat split].
Defined.

Lemma attenuation_single_step_witness :
  let m := power_up pow_whole dtostrf_whole 5 boot_sample [] in
  0 <= 5 <= 255 /\
  u8Att (glob (step pow_whole dtostrf_whole m (press_upper 1000))) <> u8Att (glob m) /\
  (read_buttons (press_upper 1000) = 1 \/ read_buttons (press_upper 1000) = 2).
Proof.
  intros m.
  assert (H : 0 <= 5 <= 255) by lia.
  assert (N : u8Att (glob (step pow_whole dtostrf_whole m (press_upper 1000)))
              <> u8Att (glob m)) by (vm_compute; discriminate).
  split; [exact H|]. split; [exact N|].
  destruct (attenuation_single_step pow_whole dtostrf_whole 5 boot_sample []
              (press_upper 1000) H N) as (_ & [(B & _)|(B & _)]); [now left | now right].
Defined.

Lemma hold_upper_witness :
  let m := power_up pow_whole dtostrf_whole 47 boot_sample [] in
  let ins := [press_upper 1000; press_upper 2000; press_upper 3000; press_upper 4000] in
  spaced (u32MillisLast (glob m)) ins /\
  u8Att (glob (run pow_whole dtostrf_whole m ins)) = 49 /\
  writes_between m (run pow_whole dtostrf_whole m ins) = 2%nat.
Proof.
  intros m ins.
  assert (H : 0 <= 47 <= 255) by lia.
  assert (B : Forall (fun i => read_buttons i = 1) ins) by (repeat constructor).
  assert (S : spaced (u32MillisLast (glob m)) ins) by (vm_compute; repeat split).
  split; [exact S|].
  destruct (hold_upper pow_whole dtostrf_whole 47 boot_sample [] ins H B S) as (A & _ & W).
  split; (etransitivity; [eassumption | vm_compute; reflexivity]).
Defined.

Lemma hold_middle_witness :
  let m := power_up pow_whole dtostrf_whole 2 boot_sample [] in
  let ins := [press_middle 1000; press_middle 2000; press_middle 3000] in
  spaced (u32MillisLast (glob m)) ins /\
  u8Att (glob (run pow_whole dtostrf_whole m ins)) = 0 /\
  writes_between m (run pow_whole dtostrf_whole m ins) = 2%nat.
Proof.
  intros m ins.
  assert (H : 0 <= 2 <= 255) by lia.
  assert (B : Forall (fun i => read_buttons i = 2) ins) by (repeat constructor).
  assert (S : spaced (u32MillisLast (glob m)) ins) by (vm_compute; repeat split).
  split; [exact S|].
  destruct (hold_middle pow_whole dtostrf_whole 2 boot_sample [] ins H B S) as (A & _ & W).
  split; (etransitivity; [eassumption | vm_compute; reflexivity]).
Defined.

Lemma up_then_down_witness :
  let m := power_up pow_whole dtostrf_whole 5 boot_sample [] in
  u8Att (glob m) < 49 /\
  u8Att (glob (run pow_whole dtostrf_whole m [press_upper 1000; press_middle 2000])) = 5 /\
  eelog (run pow_whole dtostrf_whole m [press_upper 1000; press_middle 2000]) = [5; 6].
Proof.
  intros m.
  assert (H : 0 <= 5 <= 255) by lia.
  assert (L : u8Att (glob m) < 49) by (vm_compute; reflexivity).
  split; [exact L|].
  destruct (up_then_down pow_whole dtostrf_whole 5 boot_sample []
              (press_upper 1000) (press_middle 2000) H L)
    as (A & _ & G); try (vm_compute; reflexivity).
  split; (etransitivity; [eassumption | vm_compute; reflexivity]).
Defined.

Lemma chord_restarts_witness :
  let m := power_up pow_whole dtostrf_whole 5 boot_sample [press_upper 1000] in
  200 < sub32 (millis1 (press_all 2000)) (u32MillisLast (glob m)) /\
  u8Att (glob (step pow_whole dtostrf_whole m (press_all 2000))) = 6 /\
  eelog (step pow_whole dtostrf_whole m (press_all 2000)) = [6].
Proof.
  intros m.
  assert (H : 0 <= 5 <= 255) by lia.
  assert (W : 200 < sub32 (millis1 (press_all 2000)) (u32MillisLast (glob m)))
    by (vm_compute; reflexivity).
  split; [exact W|].
  destruct (chord_restarts_from_eeprom pow_whole dtostrf_whole 5 boot_sample
              [press_upper 1000] (press_all 2000) H W)
    as (_ & A & _ & G & _); [reflexivity|].
  split; (etransitivity; [eassumption | vm_compute; reflexivity]).
Defined.

Lemma eeprom_holds_attenuation_witness :
  let m := power_up pow_whole dtostrf_whole 200 boot_sample [press_upper 1000] in
  0 <= 200 <= 255 /\ EEPROM0 m = u8Att (glob m) /\
  Forall (fun v => 0 <= v <= 49) (eelog m).
Proof.
  intros m.
  assert (H : 0 <= 200 <= 255) by lia.
  split; [exact H|].
  destruct (eeprom_holds_attenuation pow_whole dtostrf_whole 200 boot_sample
              [press_upper 1000] H) as (E & _ & F & _).
  split; [exact E | exact F].
Defined.

Lemma filters_stay_well_formed_witness :
  let ins := [press_upper 1000; released 2000] in
  boot_samples boot_sample /\ Forall pass_samples ins /\
  is_sample (s16Tmp (glob (power_up pow_whole dtostrf_whole 0 boot_sample ins))).
Proof.
  intros ins.
  assert (P : Forall pass_samples ins)
    by (repeat constructor; apply pass_sample_samples).
  split; [exact boot_sample_samples|]. split; [exact P|].
  exact (proj1 (proj2 (filters_stay_well_formed pow_whole dtostrf_whole 0 boot_sample ins
                         boot_sample_samples P))).
Defined.

Lemma steady_input_reading_witness :
  let m' := step pow_whole dtostrf_whole (setup 10 [] boot_sample) (released 1000) in
  loop pow_whole dtostrf_whole (power_up pow_whole dtostrf_whole 10 boot_sample [])
       (released 1000) = Running m' /\
  s16Tmp (glob m') = 250 /\
  fPwrdBm (glob m') = (linear_dBm 400 + inject_Z (u8Att (glob m')))%Q.
Proof.
  intros m'.
  assert (L : loop pow_whole dtostrf_whole
                (power_up pow_whole dtostrf_whole 10 boot_sample [])
                (released 1000) = Running m') by (vm_compute; reflexivity).
  split; [exact L|].
  assert (Sp : is_sample 400) by (unfold is_sample; lia).
  assert (St : is_sample 250) by (unfold is_sample; lia).
  assert (C : pass_constant 400 250 (released 1000))
    by (repeat split; apply boot_sample_constant).
  destruct (steady_input_reading pow_whole dtostrf_whole 400 250 10 boot_sample []
              (released 1000) m' Sp St boot_sample_constant
              (List.Forall_nil _) C L)
    as (_ & _ & S & _ & F).
  split; [exact S | apply F; lia].
Defined.

Lemma temperature_text_witness :
  let m := setup 0 [] boot_sample in
  let m' := step pow_whole dtostrf_whole m (released 1000) in
  loop pow_whole dtostrf_whole m (released 1000) = Running m' /\
  (-55.0 <= fTamb (glob m'))%Q /\ (fTamb (glob m') <= 100.0)%Q.
Proof.
  intros m m'.
  assert (L : loop pow_whole dtostrf_whole m (released 1000) = Running m')
    by (vm_compute; reflexivity).
  split; [exact L|].
  destruct (temperature_text_by_sample pow_whole dtostrf_whole m (released 1000) m' L)
    as (_ & _ & _ & T).
  destruct T as (T1 & T2 & _); [vm_compute; split; discriminate|].
  split; [exact T1 | exact T2].
Defined.

Lemma calibration_monotone_witness :
  400 < 401 /\ (linear_dBm 401 < linear_dBm 400)%Q /\
  (linear_celsius 400 < linear_celsius 401)%Q.
Proof.
  assert (H : 400 < 401) by lia.
  destruct (calibration_monotone 400 401 H) as (A & B & _).
  split; [exact H|]. split; [exact A | exact B].
Defined.

Lemma valid_reading_bounds_witness :
  let m := power_up pow_whole dtostrf_whole 10 boot_sample [] in
  let m' := step pow_whole dtostrf_whole m (released 1000) in
  loop pow_whole dtostrf_whole m (released 1000) = Running m' /\
  (-33 < fPwrdBm (glob m'))%Q /\ (fPwrdBm (glob m') < 59.1)%Q.
Proof.
  intros m m'.
  assert (H : 0 <= 10 <= 255) by lia.
  assert (L : loop pow_whole dtostrf_whole m (released 1000) = Running m')
    by (vm_compute; reflexivity).
  split; [exact L|].
  destruct (valid_reading_bounds pow_whole dtostrf_whole 10 boot_sample []
              (released 1000) m' H L) as (A & B);
    [vm_compute; split; discriminate|].
  split; [exact A | exact B].
Defined.

Lemma attenuation_text_witness :
  let m := power_up pow_whole dtostrf_whole 5 boot_sample [press_upper 1000] in
  0 <= 5 <= 255 /\ String.length (strAtt (glob m)) = 5%nat /\
  strAtt (glob m) = " 6 dB"%string.
Proof.
  intros m.
  assert (H : 0 <= 5 <= 255) by lia.
  split; [exact H|].
  destruct (attenuation_text pow_whole dtostrf_whole 5 boot_sample [press_upper 1000] H)
    as (A & _).
  split; [exact A | vm_compute; reflexivity].
Defined.

Lemma moving_average_witness :
  let rs := map Z.of_nat (seq 1 20) in
  Forall is_sample rs /\
  snd (filter_insert_all (repeat 0 20) 3 0 ([1000; 2; 3] ++ rs)) = 10.
Proof.
  intros rs.
  assert (S : Forall is_sample rs).
  { apply List.Forall_forall. intros x Hx. apply in_map_iff in Hx.
    destruct Hx as (k & <- & Hk). apply in_seq in Hk. unfold is_sample. lia. }
  split; [exact S|].
  assert (Hlen : length (repeat 0 20) = 20%nat) by reflexivity.
  assert (Hidx : 0 <= 3 < 20) by lia.
  assert (Hrs : length rs = 20%nat) by reflexivity.
  rewrite (proj1 (moving_average (repeat 0 20) 3 0 [1000; 2; 3] rs Hlen Hidx Hrs S)).
  vm_compute. reflexivity.
Defined.

Lemma eeprom_untouched_witness :
  let m := power_up pow_whole dtostrf_whole 5 boot_sample [] in
  0 <= 5 <= 255 /\ read_buttons (press_lower 1000) = 4 /\
  eelog (step pow_whole dtostrf_whole m (press_lower 1000)) = eelog m /\
  u8Att (glob (step pow_whole dtostrf_whole m (press_lower 1000))) = u8Att (glob m).
Proof.
  intros m.
  assert (H : 0 <= 5 <= 255) by lia.
  assert (B : read_buttons (press_lower 1000) = 4) by reflexivity.
  split; [exact H|]. split; [exact B|].
  destruct (eeprom_untouched_without_step pow_whole dtostrf_whole 5 boot_sample []
              (press_lower 1000) H) as (L & _ & A).
  - left. rewrite B. split; discriminate.
  - split; [exact L | exact A].
Defined.

